(** * Proof-of-work search and textbook RSA signing: a shallow embedding

    The development follows [pow_rsa_demo/rsa_pow_sign.py] and
    [simple-pow-sha256/pow_sha256.py].

    - Python integers are [Z]. A Python [str] is a sequence of code
      points; it is modelled by the Rocq [string] of their UTF-8 bytes
      (one [ascii] per byte). A [str] may also hold surrogate code points
      (U+D800 to U+DFFF), which UTF-8 refuses: such a code point is kept
      in the same three-byte pattern, ED, then a byte from A0 to BF, then
      a third byte. [s.encode("utf-8")] gives the bytes of [s], or raises
      when [s] holds a surrogate.
    - [hashlib.sha256] is the FIPS 180-4 function, written out below on
      32-bit words carried by [Z].
    - The [random] module is an oracle: a tape of integers from which
      [getrandbits] and [randrange] take their next value.
    - [while True] loops take a fuel argument; exceptions are outcomes. *)

From Stdlib Require Import ZArith List String Ascii Bool Lia.
From Stdlib Require Import Zcong Zdivisibility Zpow_facts.
From Stdlib Require Import Zmod.ZmodInv.
From Stdlib Require Import DecimalString.
Import ListNotations.

Local Open Scope Z_scope.

(** ** SHA-256 (hashlib.sha256) *)

Module Sha256.

Definition w32 (x : Z) : Z := x mod 2 ^ 32.
Definition add32 (x y : Z) : Z := w32 (x + y).
Definition rotr (n x : Z) : Z :=
  Z.lor (Z.shiftr x n) (w32 (Z.shiftl x (32 - n))).
Definition shr (n x : Z) : Z := Z.shiftr x n.
Definition not32 (x : Z) : Z := Z.lxor x 0xffffffff.

Definition Ch (x y z : Z) : Z := Z.lxor (Z.land x y) (Z.land (not32 x) z).
Definition Maj (x y z : Z) : Z :=
  Z.lxor (Z.lxor (Z.land x y) (Z.land x z)) (Z.land y z).
Definition Sigma0 (x : Z) : Z :=
  Z.lxor (Z.lxor (rotr 2 x) (rotr 13 x)) (rotr 22 x).
Definition Sigma1 (x : Z) : Z :=
  Z.lxor (Z.lxor (rotr 6 x) (rotr 11 x)) (rotr 25 x).
Definition sigma0 (x : Z) : Z :=
  Z.lxor (Z.lxor (rotr 7 x) (rotr 18 x)) (shr 3 x).
Definition sigma1 (x : Z) : Z :=
  Z.lxor (Z.lxor (rotr 17 x) (rotr 19 x)) (shr 10 x).

(** The constants of FIPS 180-4 are fractional parts of roots of the first
    primes, 32 bits each; they are computed here rather than tabulated. *)
Definition first_primes (bound : nat) : list Z :=
  map Z.of_nat
    (filter (fun n => forallb (fun d => negb (Nat.eqb (Nat.modulo n d) 0))
                              (seq 2 (n - 2)))
            (seq 2 bound)).

(** The integer cube root, one bit at a time from bit [nbits - 1] down. *)
Fixpoint icbrt (nbits : nat) (x r : Z) : Z :=
  match nbits with
  | O => r
  | S b =>
      let r' := r + 2 ^ Z.of_nat b in
      icbrt b x (if r' * r' * r' <=? x then r' else r)
  end.

(** Cube roots of the first 64 primes. *)
Definition K : list Z :=
  Eval vm_compute in
    map (fun p => w32 (icbrt 40 (p * 2 ^ 96) 0)) (first_primes 310).

(** The eight working variables / the chaining value. *)
Record state := State {
  sa : Z; sb : Z; sc : Z; sd : Z; se : Z; sf : Z; sg : Z; sh : Z }.

(** Square roots of the first 8 primes. *)
Definition H0 : state :=
  Eval vm_compute in
  match map (fun p => w32 (Z.sqrt (p * 2 ^ 64))) (first_primes 18) with
  | [a; b; c; d; e; f; g; h] => State a b c d e f g h
  | _ => State 0 0 0 0 0 0 0 0
  end.

(** Padding: the message, a 1 bit, zeros, and the bit length on 64 bits. *)
Fixpoint be_bytes (n : nat) (x : Z) : list Z :=
  match n with
  | O => []
  | S n' => be_bytes n' (x / 256) ++ [x mod 256]
  end.

Definition pad (msg : list Z) : list Z :=
  let len := Z.of_nat (List.length msg) in
  msg ++ [0x80] ++ repeat 0 (Z.to_nat ((55 - len) mod 64))
      ++ be_bytes 8 (8 * len).

Fixpoint words (fuel : nat) (bs : list Z) : list Z :=
  match fuel, bs with
  | S f, b0 :: b1 :: b2 :: b3 :: rest =>
      (((b0 * 256 + b1) * 256 + b2) * 256 + b3) :: words f rest
  | _, _ => []
  end.

Fixpoint blocks (fuel : nat) (ws : list Z) : list (list Z) :=
  match fuel, ws with
  | S f, _ :: _ => firstn 16 ws :: blocks f (skipn 16 ws)
  | _, _ => []
  end.

(** Message schedule; [rev_w] holds W[t-1], W[t-2], ... *)
Fixpoint extend (n : nat) (rev_w : list Z) : list Z :=
  match n with
  | O => rev_w
  | S n' =>
      let w := add32 (add32 (sigma1 (nth 1 rev_w 0)) (nth 6 rev_w 0))
                     (add32 (sigma0 (nth 14 rev_w 0)) (nth 15 rev_w 0)) in
      extend n' (w :: rev_w)
  end.

Definition schedule (block : list Z) : list Z := rev (extend 48 (rev block)).

Definition round (s : state) (kw : Z * Z) : state :=
  let (k, w) := kw in
  let t1 := add32 (add32 (add32 (sh s) (Sigma1 (se s)))
                         (add32 (Ch (se s) (sf s) (sg s)) k)) w in
  let t2 := add32 (Sigma0 (sa s)) (Maj (sa s) (sb s) (sc s)) in
  State (add32 t1 t2) (sa s) (sb s) (sc s) (add32 (sd s) t1) (se s) (sf s) (sg s).

Definition compress (h : state) (block : list Z) : state :=
  let s := fold_left round (combine K (schedule block)) h in
  State (add32 (sa h) (sa s)) (add32 (sb h) (sb s))
        (add32 (sc h) (sc s)) (add32 (sd h) (sd s))
        (add32 (se h) (se s)) (add32 (sf h) (sf s))
        (add32 (sg h) (sg s)) (add32 (sh h) (sh s)).

Definition hash (msg : list Z) : state :=
  let p := pad msg in
  let n := List.length p in
  fold_left compress (blocks n (words n p)) H0.

(** [.digest()]: the 32 bytes of the final chaining value. *)
Definition digest (msg : list Z) : list Z :=
  let s := hash msg in
  flat_map (be_bytes 4) [sa s; sb s; sc s; sd s; se s; sf s; sg s; sh s].

End Sha256.

(** ** Exceptions *)

Inductive exn : Type := ValueError | UnicodeEncodeError.

(** The outcome of a call that cannot loop: a value or an exception. *)
Inductive result (A : Type) : Type :=
| Ok (a : A)
| Raise (e : exn).
Arguments Ok {A} a.
Arguments Raise {A} e.

Definition rbind {A B : Type} (m : result A) (f : A -> result B) : result B :=
  match m with
  | Ok a => f a
  | Raise e => Raise e
  end.

Notation "x <~ m ;; f" := (rbind m (fun x => f))
  (at level 61, m at next level, right associativity).

(** ** Strings, bytes and integers *)

(** A Python [str] is represented by the string of its bytes in UTF-8. A
    surrogate code point (U+D800 to U+DFFF), which a [str] may hold and
    UTF-8 excludes, is written in the same three-byte pattern: ED, then a
    byte of A0..BF, then a continuation byte. *)

(** The bytes a string is made of. *)
Definition bytes_of_string (s : string) : list Z :=
  map (fun c => Z.of_N (N_of_ascii c)) (list_ascii_of_string s).

(** A surrogate code point among the bytes: ED followed by A0 or more. *)
Fixpoint holds_surrogate (bs : list Z) : bool :=
  match bs with
  | [] => false
  | b :: rest =>
      match rest with
      | [] => false
      | b' :: _ => ((b =? 0xED) && (0xA0 <=? b')) || holds_surrogate rest
      end
  end.

(** [s.encode("utf-8")], with the default error handler: the bytes of
    the string, or UnicodeEncodeError when it holds a surrogate. *)
Definition encode_utf8 (s : string) : result (list Z) :=
  let bs := bytes_of_string s in
  if holds_surrogate bs then Raise UnicodeEncodeError else Ok bs.

Definition hex_digit (d : Z) : ascii :=
  ascii_of_N (Z.to_N (if d <? 10 then 48 + d else 87 + d)).

(** [bytes.hex()]: two lower-case digits per byte. *)
Fixpoint hex_of_bytes (bs : list Z) : string :=
  match bs with
  | [] => EmptyString
  | b :: rest =>
      String (hex_digit (b / 16)) (String (hex_digit (b mod 16)) (hex_of_bytes rest))
  end.

(** [int.from_bytes(h, byteorder="big")] *)
Definition int_from_bytes_big (bs : list Z) : Z :=
  fold_left (fun acc b => acc * 256 + b) bs 0.

(** [hashlib.sha256(b).hexdigest()] on bytes *)
Definition hexdigest (bs : list Z) : string := hex_of_bytes (Sha256.digest bs).

(** [hashlib.sha256(s.encode("utf-8")).hexdigest()] *)
Definition sha256_hexdigest (s : string) : result string :=
  bs <~ encode_utf8 s ;;
  Ok (hexdigest bs).

(** [str(n)] / the [f"{n}"] conversion of an int. The interpreter's
    configurable limit on the number of digits of a conversion is not
    modelled. *)
Definition str (n : Z) : string := NilZero.string_of_int (Z.to_int n).

(** [h.startswith(prefix)] *)
Definition startswith (h prefix : string) : bool := String.prefix prefix h.

(** ** Python values and built-ins *)

(** A Python object as the functions below return them in tuples. Only
    the elapsed time is a float; it is kept as a fraction, being a
    measurement that no property below inspects. *)
Inductive pyval : Type :=
| PyInt (z : Z)
| PyStr (s : string)
| PyFloat (seconds : Z * Z).

(** Square and multiply; its value is [b ^ e mod m] ([pow_mod_pos_spec]). *)
Fixpoint pow_mod_pos (b : Z) (e : positive) (m : Z) : Z :=
  match e with
  | xH => b mod m
  | xO e' => let x := pow_mod_pos b e' m in (x * x) mod m
  | xI e' => let x := pow_mod_pos b e' m in (x * x mod m * b) mod m
  end.

Definition pow_mod (b e m : Z) : Z :=
  match e with
  | Z0 => 1 mod m
  | Zpos p => pow_mod_pos b p m
  | Zneg _ => 0
  end.

(** The built-in [pow(b, e, m)] on ints: a zero modulus raises, a modulus
    of absolute value 1 gives 0, a negative exponent goes through the
    inverse of the base (which must exist), and the result takes the sign
    of the modulus. *)
Definition py_pow (b e m : Z) : result Z :=
  if m =? 0 then Raise ValueError
  else if Z.abs m =? 1 then Ok 0
  else if e <? 0 then
    if Z.gcd b m =? 1 then Ok (pow_mod (Z.invmod b (Z.abs m)) (- e) m)
    else Raise ValueError
  else Ok (pow_mod b e m).

(** [a << b] *)
Definition py_lshift (a b : Z) : result Z :=
  if b <? 0 then Raise ValueError else Ok (Z.shiftl a b).

(** [n.bit_length()] *)
Definition bit_length (n : Z) : Z :=
  if n =? 0 then 0 else Z.log2 (Z.abs n) + 1.

(** ** The random source *)

(** The generator is an oracle: an infinite tape of integers. Each call
    takes the value under the head and reduces it into the requested
    range, so that every tape is admissible and every value of the range
    is produced by some tape. *)
Definition tape : Type := nat -> Z.

Definition advance (t : tape) : tape := fun i => t (S i).

(** Computations that draw random numbers and may loop: [None] is a loop
    that has not returned within the fuel. *)
Definition Rand (A : Type) : Type := tape -> option (result (A * tape)).

Definition ret {A : Type} (a : A) : Rand A := fun t => Some (Ok (a, t)).

Definition bind {A B : Type} (m : Rand A) (f : A -> Rand B) : Rand B :=
  fun t =>
    match m t with
    | None => None
    | Some (Raise e) => Some (Raise e)
    | Some (Ok (a, t')) => f a t'
    end.

Definition lift {A : Type} (r : result A) : Rand A :=
  fun t =>
    match r with
    | Ok a => Some (Ok (a, t))
    | Raise e => Some (Raise e)
    end.

Definition spin {A : Type} : Rand A := fun _ => None.

Notation "x <- m ;; f" := (bind m (fun x => f))
  (at level 61, m at next level, right associativity).
(** [random.getrandbits(k)] *)
Definition getrandbits (k : Z) : Rand Z :=
  fun t =>
    if k <? 0 then Some (Raise ValueError)
    else Some (Ok (t O mod 2 ^ k, advance t)).

(** [random.randrange(start, stop)]: an integer of [start, stop). *)
Definition randrange (start stop : Z) : Rand Z :=
  fun t =>
    if stop <=? start then Some (Raise ValueError)
    else Some (Ok (start + t O mod (stop - start), advance t)).

(** ** Part 2: RSA *)

Definition small_primes : list Z := [2; 3; 5; 7; 11; 13; 17; 19; 23].

(** [while d % 2 == 0: r += 1; d //= 2], on the binary digits of [d]. *)
Fixpoint split_twos (r : Z) (d : positive) : Z * Z :=
  match d with
  | xO d' => split_twos (r + 1) d'
  | _ => (r, Zpos d)
  end.

(** [r, d = 0, n - 1] followed by the halving loop. The loop is entered
    with [n - 1 >= 28] only; the other branches are never taken. *)
Definition decompose (m : Z) : Z * Z :=
  match m with
  | Zpos p => split_twos 0 p
  | _ => (0, m)
  end.

(** The inner [for __ in range(r - 1)] loop: [true] when it leaves by
    [break], [false] when it runs out (the [else] branch). *)
Fixpoint squarings (j : nat) (x n : Z) : result bool :=
  match j with
  | O => Ok false
  | S j' =>
      x' <~ py_pow x 2 n ;;
      if x' =? n - 1 then Ok true else squarings j' x' n
  end.

(** The outer [for _ in range(k)] loop. *)
Fixpoint rounds (k : nat) (n r d : Z) : Rand bool :=
  match k with
  | O => ret true
  | S k' =>
      a <- randrange 2 (n - 2) ;;
      x <- lift (py_pow a d n) ;;
      if (x =? 1) || (x =? n - 1) then rounds k' n r d
      else
        hit <- lift (squarings (Z.to_nat (r - 1)) x n) ;;
        if hit then rounds k' n r d else ret false
  end.

Definition is_prime (n k : Z) : Rand bool :=
  if n <? 2 then ret false
  else if existsb (Z.eqb n) small_primes then ret true
  else if existsb (fun p => n mod p =? 0) small_primes then ret false
  else
    let '(r, d) := decompose (n - 1) in
    rounds (Z.to_nat k) n r d.

Fixpoint generate_large_prime (fuel : nat) (bits : Z) : Rand Z :=
  match fuel with
  | O => spin
  | S fuel' =>
      g <- getrandbits bits ;;
      top <- lift (py_lshift 1 (bits - 1)) ;;
      let candidate := Z.lor (Z.lor g 1) top in
      ok <- is_prime candidate 10 ;;
      if ok then ret candidate else generate_large_prime fuel' bits
  end.

Definition public_key : Type := Z * Z.
Definition private_key : Type := Z * Z.

Fixpoint generate_rsa_keypair_loop (fuel inner : nat) (bits : Z)
  : Rand (public_key * private_key) :=
  match fuel with
  | O => spin
  | S fuel' =>
      let e := 65537 in
      p <- generate_large_prime inner (bits / 2) ;;
      q <- generate_large_prime inner (bits / 2) ;;
      if p =? q then generate_rsa_keypair_loop fuel' inner bits
      else
        let n := p * q in
        let phi := (p - 1) * (q - 1) in
        if Z.gcd e phi =? 1 then
          d <- lift (py_pow e (-1) phi) ;;
          ret ((e, n), (d, n))
        else generate_rsa_keypair_loop fuel' inner bits
  end.

(** [fuel] bounds the iterations of each [while True] loop. *)
Definition generate_rsa_keypair (fuel : nat) (bits : Z)
  : Rand (public_key * private_key) :=
  generate_rsa_keypair_loop fuel fuel bits.

(** ** Part 3: signing and verifying *)

Definition sha256_int (message : string) : result Z :=
  h <~ encode_utf8 message ;;
  Ok (int_from_bytes_big (Sha256.digest h)).

Definition rsa_sign (message : string) (key : private_key) : result Z :=
  let '(d, n) := key in
  h_int <~ sha256_int message ;;
  signature <~ py_pow h_int d n ;;
  Ok signature.

Definition rsa_verify (message : string) (signature : Z) (key : public_key)
  : result bool :=
  let '(e, n) := key in
  h_int <~ sha256_int message ;;
  h_from_sig <~ py_pow signature e n ;;
  Ok (h_int =? h_from_sig).

(** ** Part 1: proof of work *)

(** The [while True] loop of [pow_search], from a given nonce: [None] is
    a search that has not returned within the fuel. *)
Fixpoint pow_search_from (fuel : nat) (nickname prefix : string) (nonce : Z)
  : option (result (list pyval)) :=
  match fuel with
  | O => None
  | S fuel' =>
      let msg := (nickname ++ str nonce)%string in
      match sha256_hexdigest msg with
      | Raise e => Some (Raise e)
      | Ok h =>
          if startswith h prefix then Some (Ok [PyStr msg; PyStr h; PyInt nonce])
          else pow_search_from fuel' nickname prefix (nonce + 1)
      end
  end.

Definition pow_search (fuel : nat) (nickname prefix : string)
  : option (result (list pyval)) :=
  pow_search_from fuel nickname prefix 0.

(** [simple-pow-sha256/pow_sha256.py] *)
Definition NICKNAME : string := "Sam".

(** [elapsed] is the difference of the two [time.perf_counter()] readings. *)
Fixpoint mine_from (fuel : nat) (target_prefix : string) (elapsed : Z * Z)
  (nonce : Z) : option (result (list pyval)) :=
  match fuel with
  | O => None
  | S fuel' =>
      let content := (NICKNAME ++ str nonce)%string in
      match sha256_hexdigest content with
      | Raise e => Some (Raise e)
      | Ok hash_hex =>
          if startswith hash_hex target_prefix then
            Some (Ok [PyInt nonce; PyStr content; PyStr hash_hex; PyFloat elapsed])
          else mine_from fuel' target_prefix elapsed (nonce + 1)
      end
  end.

Definition mine (fuel : nat) (target_prefix : string) (elapsed : Z * Z)
  : option (result (list pyval)) :=
  mine_from fuel target_prefix elapsed 0.

(** ** Vocabulary of the properties *)

(** The digest of [nickname + str(n)] starts with [prefix]. *)
Definition matches (nickname prefix : string) (n : Z) : Prop :=
  exists h, sha256_hexdigest (nickname ++ str n) = Ok h /\
            startswith h prefix = true.

(** The str holding the one code point U+D800, a lone surrogate. *)
Definition lone_surrogate : string :=
  String (ascii_of_nat 237) (String (ascii_of_nat 160)
    (String (ascii_of_nat 128) EmptyString)).

(** [n0] is the least non-negative nonce that matches. *)
Definition first_match (nickname prefix : string) (n0 : Z) : Prop :=
  0 <= n0 /\ matches nickname prefix n0 /\
  forall k, 0 <= k < n0 -> ~ matches nickname prefix k.

(** The computation [m], run on the tape [t], returns [a]. *)
Definition returns {A : Type} (m : Rand A) (t : tape) (a : A) : Prop :=
  exists t', m t = Some (Ok (a, t')).

(** The value or exception a run ends with, the final tape left out. *)
Definition outcome {A : Type} (m : Rand A) (t : tape) : option (result A) :=
  match m t with
  | None => None
  | Some (Ok (a, _)) => Some (Ok a)
  | Some (Raise e) => Some (Raise e)
  end.

(** What the prime generator guarantees about a value it returns for a
    request of [bits] bits. *)
Definition sampled (bits x : Z) : Prop :=
  bit_length x = bits /\ Z.odd x = true /\
  exists t, returns (is_prime x 10) t true.

(** Primality by trial division, to establish [Z.prime] on small numbers. *)
Definition prime_by_trial (p : Z) : bool :=
  (1 <? p) &&
  forallb (fun i => negb (p mod Z.of_nat i =? 0)) (seq 2 (Z.to_nat p - 2)).

(** A tape that starts with the given draws and goes on with [dflt]. *)
Definition tape_of (draws : list Z) (dflt : Z) : tape :=
  fun i => nth i draws dflt.

(** [n] passes the strong probable-prime test to the base [a]: with
    n - 1 = 2^r * d, either a^d is 1 or one of a^d, a^(2d), ...,
    a^(2^(r-1) d) is -1 modulo n. *)
Definition strong_probable_prime (n a : Z) : Prop :=
  let '(r, d) := decompose (n - 1) in
  a ^ d mod n = 1 \/
  exists j, 0 <= j < r /\ a ^ (2 ^ j * d) mod n = n - 1.

(** The verdict of the stages of [is_prime] that draw no base: the bound,
    the table and trial division. *)
Definition passes_trial_division (n : Z) : bool :=
  negb (n <? 2) &&
  (existsb (Z.eqb n) small_primes
   || negb (existsb (fun p => n mod p =? 0) small_primes)).

(** [n] is a product of two primes. *)
Definition semiprime (n : Z) : Prop :=
  exists p q, Z.prime p /\ Z.prime q /\ n = p * q.

(** The characters of a lower-case hexadecimal string. *)
Definition hex_char (c : ascii) : bool :=
  existsb (Ascii.eqb c) (list_ascii_of_string "0123456789abcdef").

(** The prefix made of [k] zeros, as in "0000" and "00000". *)
Fixpoint zeros (k : nat) : string :=
  match k with
  | O => EmptyString
  | S k' => String "0" (zeros k')
  end.

(** The hexadecimal digits of a byte string, two per byte, as numbers. *)
Definition nibbles (bs : list Z) : list Z :=
  flat_map (fun b => [b / 16; b mod 16]) bs.

(** * Properties *)

(** ** SHA-256 test vectors (FIPS 180-4) *)

Example sha256_constants :
  nth 0 Sha256.K 0 = 0x428a2f98 /\ nth 63 Sha256.K 0 = 0xc67178f2 /\
  List.length Sha256.K = 64%nat /\
  Sha256.sa Sha256.H0 = 0x6a09e667 /\ Sha256.sh Sha256.H0 = 0x5be0cd19.
Proof. repeat split. Qed.

Example sha256_abc :
  sha256_hexdigest "abc"
  = Ok "ba7816bf8f01cfea414140de5dae2223b00361a396177a9cb410ff61f20015ad"%string.
Proof. vm_compute. reflexivity. Qed.

Example sha256_empty :
  sha256_hexdigest ""
  = Ok "e3b0c44298fc1c149afbf4c8996fb92427ae41e4649b934ca495991b7852b855"%string.
Proof. vm_compute. reflexivity. Qed.

Example sha256_lone_surrogate :
  sha256_hexdigest lone_surrogate = Raise UnicodeEncodeError.
Proof. reflexivity. Qed.

Example pow_search_lone_surrogate :
  pow_search 1 lone_surrogate "0000" = Some (Raise UnicodeEncodeError).
Proof. vm_compute. reflexivity. Qed.

(** ** Encoding *)

Lemma bytes_of_string_app s1 s2 :
  bytes_of_string (s1 ++ s2) = bytes_of_string s1 ++ bytes_of_string s2.
Proof.
  unfold bytes_of_string. rewrite <- map_app. f_equal.
  induction s1 as [|c s1 IH]; cbn; [reflexivity|]. rewrite IH. reflexivity.
Qed.

Lemma holds_surrogate_low b :
  Forall (fun x => x < 0xA0) b -> holds_surrogate b = false.
Proof.
  induction 1 as [|x b Hx Hb IH]; [reflexivity|].
  cbn [holds_surrogate]. destruct b as [|y b]; [reflexivity|].
  rewrite IH. apply Forall_inv in Hb.
  destruct (Z.leb_spec 0xA0 y); [lia|]. rewrite andb_false_r. reflexivity.
Qed.

(** Appending bytes below A0 (ASCII, for instance) neither adds nor
    removes a surrogate. *)
Lemma holds_surrogate_app_low a b :
  Forall (fun x => x < 0xA0) b ->
  holds_surrogate (a ++ b) = holds_surrogate a.
Proof.
  intros Hb. induction a as [|x a IH]; [apply holds_surrogate_low; exact Hb|].
  cbn [app holds_surrogate]. destruct a as [|y a].
  - cbn [app]. destruct b as [|z b]; [reflexivity|].
    rewrite (holds_surrogate_low _ Hb). apply Forall_inv in Hb.
    destruct (Z.leb_spec 0xA0 z); [lia|]. rewrite andb_false_r. reflexivity.
  - cbn [app] in IH |- *. rewrite IH. reflexivity.
Qed.

Lemma uint_bytes_low d :
  Forall (fun x => x < 0xA0) (bytes_of_string (NilEmpty.string_of_uint d)).
Proof.
  induction d; cbn; constructor; (lia || assumption).
Qed.

(** The decimal writing of an integer is made of ASCII characters. *)
Lemma str_bytes_low n : Forall (fun x => x < 0xA0) (bytes_of_string (str n)).
Proof.
  unfold str. destruct (Z.to_int n) as [d|d]; cbn [NilZero.string_of_int].
  - destruct d; try apply uint_bytes_low. cbn. constructor; [lia|constructor].
  - change (bytes_of_string (String "-" (NilZero.string_of_uint d)))
      with (45 :: bytes_of_string (NilZero.string_of_uint d)).
    constructor; [lia|].
    destruct d; try apply uint_bytes_low. cbn. constructor; [lia|constructor].
Qed.

(** Whether [nickname + str(n)] can be encoded depends on the nickname
    only. *)
Lemma encode_utf8_nonce nickname n :
  encode_utf8 (nickname ++ str n)
  = match encode_utf8 nickname with
    | Ok bs => Ok (bs ++ bytes_of_string (str n))
    | Raise e => Raise e
    end.
Proof.
  unfold encode_utf8. rewrite bytes_of_string_app.
  rewrite holds_surrogate_app_low by apply str_bytes_low.
  destruct (holds_surrogate (bytes_of_string nickname)); reflexivity.
Qed.

Lemma sha256_hexdigest_nonce nickname n :
  sha256_hexdigest (nickname ++ str n)
  = match encode_utf8 nickname with
    | Ok bs => Ok (hexdigest (bs ++ bytes_of_string (str n)))
    | Raise e => Raise e
    end.
Proof.
  unfold sha256_hexdigest. rewrite encode_utf8_nonce.
  destruct (encode_utf8 nickname); reflexivity.
Qed.

Lemma sha256_hexdigest_defined nickname n k h :
  sha256_hexdigest (nickname ++ str n) = Ok h ->
  exists h', sha256_hexdigest (nickname ++ str k) = Ok h'.
Proof.
  rewrite !sha256_hexdigest_nonce.
  destruct (encode_utf8 nickname); [eauto|discriminate].
Qed.

Lemma sha256_hexdigest_NICKNAME n :
  exists h, sha256_hexdigest (NICKNAME ++ str n) = Ok h.
Proof.
  rewrite sha256_hexdigest_nonce.
  assert (E : encode_utf8 NICKNAME = Ok (bytes_of_string NICKNAME))
    by reflexivity.
  rewrite E. eauto.
Qed.

(** ** The proof-of-work search *)

Lemma pow_search_from_sound fuel nickname prefix start res :
  pow_search_from fuel nickname prefix start = Some (Ok res) ->
  exists n0 h,
    start <= n0 /\
    sha256_hexdigest (nickname ++ str n0) = Ok h /\
    res = [PyStr (nickname ++ str n0); PyStr h; PyInt n0] /\
    matches nickname prefix n0 /\
    forall k, start <= k < n0 -> ~ matches nickname prefix k.
Proof.
  revert start. induction fuel as [|fuel IH]; intros start H;
    cbn [pow_search_from] in H.
  - discriminate.
  - destruct (sha256_hexdigest (nickname ++ str start)) as [h|e] eqn:Eh;
      [|discriminate].
    destruct (startswith h prefix) eqn:E.
    + injection H as <-. exists start, h.
      split; [lia|]. split; [exact Eh|]. split; [reflexivity|].
      split; [exists h; auto|]. intros k Hk. lia.
    + destruct (IH _ H) as (n0 & h0 & Hle & Hh & Hres & Hm & Hmin).
      exists n0, h0. split; [lia|]. split; [exact Hh|]. split; [exact Hres|].
      split; [exact Hm|].
      intros k Hk (hk & Hhk & Hmk). destruct (Z.eq_dec k start) as [->|Hne].
      * congruence.
      * apply (Hmin k); [lia|]. exists hk. auto.
Qed.

Lemma pow_search_from_complete nickname prefix (gap : nat) :
  forall start,
    matches nickname prefix (start + Z.of_nat gap) ->
    exists res, pow_search_from (S gap) nickname prefix start = Some (Ok res).
Proof.
  induction gap as [|gap IH]; intros start Hm.
  - replace (start + Z.of_nat 0) with start in Hm by lia.
    cbn [pow_search_from]. destruct Hm as (h & -> & ->). eauto.
  - cbn [pow_search_from].
    destruct Hm as (h & Hh & Hm).
    destruct (sha256_hexdigest_defined _ _ start _ Hh) as [h' ->].
    destruct (startswith h' prefix); [eauto|].
    apply IH.
    replace (start + 1 + Z.of_nat gap) with (start + Z.of_nat (S gap)) by lia.
    exists h. auto.
Qed.

(** [mine] runs the loop of [pow_search] on [NICKNAME]; only the shape of
    the returned tuple differs. *)
Lemma mine_from_pow_search_from fuel prefix elapsed start :
  mine_from fuel prefix elapsed start
  = match pow_search_from fuel NICKNAME prefix start with
    | Some (Ok [PyStr msg; PyStr h; PyInt n]) =>
        Some (Ok [PyInt n; PyStr msg; PyStr h; PyFloat elapsed])
    | Some (Raise e) => Some (Raise e)
    | _ => None
    end.
Proof.
  revert start. induction fuel as [|fuel IH]; intros start; [reflexivity|].
  cbn [mine_from pow_search_from].
  destruct (sha256_hexdigest (NICKNAME ++ str start)) as [h|e]; [|reflexivity].
  destruct (startswith h prefix); [reflexivity|apply IH].
Qed.

Lemma mine_from_sound fuel prefix elapsed start res :
  mine_from fuel prefix elapsed start = Some (Ok res) ->
  exists n0 h,
    start <= n0 /\
    sha256_hexdigest (NICKNAME ++ str n0) = Ok h /\
    res = [PyInt n0; PyStr (NICKNAME ++ str n0); PyStr h; PyFloat elapsed] /\
    matches NICKNAME prefix n0 /\
    forall k, start <= k < n0 -> ~ matches NICKNAME prefix k.
Proof.
  rewrite mine_from_pow_search_from.
  destruct (pow_search_from fuel NICKNAME prefix start) as [[r|e]|] eqn:E;
    [|discriminate|discriminate].
  destruct (pow_search_from_sound _ _ _ _ _ E)
    as (n0 & h & Hle & Hh & -> & Hm & Hmin).
  intros H. injection H as <-. exists n0, h. auto.
Qed.

(** C6. Both miners return the first match in nonce order: the nonce they
    return matches the prefix and no smaller non-negative nonce does; and
    whenever some nonce matches, the search returns once the fuel covers it. *)
Theorem miner_returns_first_match :
  forall nickname prefix elapsed,
    (forall fuel res,
        pow_search fuel nickname prefix = Some (Ok res) ->
        exists msg h n0,
          res = [PyStr msg; PyStr h; PyInt n0] /\
          first_match nickname prefix n0) /\
    (forall fuel res,
        mine fuel prefix elapsed = Some (Ok res) ->
        exists msg h n0,
          res = [PyInt n0; PyStr msg; PyStr h; PyFloat elapsed] /\
          first_match NICKNAME prefix n0) /\
    (forall n, 0 <= n -> matches nickname prefix n ->
               exists res,
                 pow_search (S (Z.to_nat n)) nickname prefix = Some (Ok res)) /\
    (forall n, 0 <= n -> matches NICKNAME prefix n ->
               exists res,
                 mine (S (Z.to_nat n)) prefix elapsed = Some (Ok res)).
Proof.
  intros nickname prefix elapsed. split; [|split; [|split]].
  - intros fuel res H.
    destruct (pow_search_from_sound _ _ _ _ _ H)
      as (n0 & h & Hle & _ & -> & Hm & Hmin).
    do 3 eexists. split; [reflexivity|]. repeat split; auto.
  - intros fuel res H.
    destruct (mine_from_sound _ _ _ _ _ H)
      as (n0 & h & Hle & _ & -> & Hm & Hmin).
    do 3 eexists. split; [reflexivity|]. repeat split; auto.
  - intros n Hn Hm. apply pow_search_from_complete.
    rewrite Z2Nat.id by lia. exact Hm.
  - intros n Hn Hm. unfold mine. rewrite mine_from_pow_search_from.
    destruct (pow_search_from_complete NICKNAME prefix (Z.to_nat n) 0) as [res E].
    { rewrite Z2Nat.id by lia. exact Hm. }
    rewrite E.
    destruct (pow_search_from_sound _ _ _ _ _ E) as (n0 & h & _ & _ & -> & _).
    eauto.
Qed.

(** C7 (as the code has it). [pow_search] returns (message, digest_hex,
    nonce) and [mine] returns (nonce, message, digest_hex, elapsed); in both
    the message is the nickname followed by the decimal nonce and digest_hex
    is the SHA-256 hex digest of the message. *)
Theorem miner_result_shape :
  forall nickname prefix elapsed fuel res,
    (pow_search fuel nickname prefix = Some (Ok res) ->
     exists n0 h, 0 <= n0 /\
       sha256_hexdigest (nickname ++ str n0) = Ok h /\
       res = [PyStr (nickname ++ str n0); PyStr h; PyInt n0]) /\
    (mine fuel prefix elapsed = Some (Ok res) ->
     exists n0 h, 0 <= n0 /\
       sha256_hexdigest (NICKNAME ++ str n0) = Ok h /\
       res = [PyInt n0; PyStr (NICKNAME ++ str n0); PyStr h; PyFloat elapsed]).
Proof.
  intros nickname prefix elapsed fuel res. split; intros H.
  - destruct (pow_search_from_sound _ _ _ _ _ H) as (n0 & h & Hle & Hh & -> & _).
    exists n0, h. auto.
  - destruct (mine_from_sound _ _ _ _ _ H) as (n0 & h & Hle & Hh & -> & _).
    exists n0, h. auto.
Qed.

(** C7 fails as stated: with the empty prefix [pow_search] returns at nonce
    0 a tuple whose first component is the message, and [mine] returns a
    tuple of four components. *)
Lemma miner_result_order_counterexample :
  (exists res, pow_search 1 "Sam" "" = Some (Ok res) /\
               forall n msg h, res <> [PyInt n; PyStr msg; PyStr h]) /\
  (exists res, mine 1 "" (0, 1) = Some (Ok res) /\
               forall n msg h, res <> [PyInt n; PyStr msg; PyStr h]).
Proof.
  split; eexists; (split; [vm_compute; reflexivity|]); intros n msg h; discriminate.
Qed.

(** ** The built-in three-argument [pow] *)

Lemma pow_mod_pos_spec b e m : pow_mod_pos b e m = b ^ Z.pos e mod m.
Proof.
  induction e as [e IH|e IH|]; cbn [pow_mod_pos].
  - rewrite IH, Pos2Z.inj_xI, Z.pow_add_r, Z.pow_twice_r, Z.pow_1_r by lia.
    rewrite <- Zmult_mod, Zmult_mod_idemp_l. reflexivity.
  - rewrite IH, Pos2Z.inj_xO, Z.pow_twice_r.
    rewrite <- Zmult_mod. reflexivity.
  - rewrite Z.pow_1_r. reflexivity.
Qed.

Lemma pow_mod_spec b e m : 0 <= e -> pow_mod b e m = b ^ e mod m.
Proof.
  intros He. destruct e as [|p|p]; cbn [pow_mod].
  - reflexivity.
  - apply pow_mod_pos_spec.
  - lia.
Qed.

Lemma mod_unit a m : Z.abs m = 1 -> a mod m = 0.
Proof.
  intros Hm. assert (m = 1 \/ m = -1) as [-> | ->] by lia.
  - apply Z.mod_1_r.
  - pose proof (Z.mod_neg_bound a (-1)). lia.
Qed.

Lemma py_pow_zero_modulus b e : py_pow b e 0 = Raise ValueError.
Proof. reflexivity. Qed.

Lemma py_pow_nonneg b e m :
  m <> 0 -> 0 <= e -> py_pow b e m = Ok (b ^ e mod m).
Proof.
  intros Hm He. unfold py_pow.
  destruct (Z.eqb_spec m 0) as [|_]; [contradiction|].
  destruct (Z.eqb_spec (Z.abs m) 1) as [H1|_].
  - rewrite mod_unit by exact H1. reflexivity.
  - destruct (Z.ltb_spec e 0) as [|_]; [lia|].
    rewrite pow_mod_spec by exact He. reflexivity.
Qed.

(** ** Signing and verifying *)

Lemma int_from_bytes_big_snoc bs b :
  int_from_bytes_big (bs ++ [b]) = int_from_bytes_big bs * 256 + b.
Proof. unfold int_from_bytes_big. rewrite fold_left_app. reflexivity. Qed.

Lemma sha256_int_encode message bytes :
  encode_utf8 message = Ok bytes ->
  sha256_int message = Ok (int_from_bytes_big (Sha256.digest bytes)).
Proof. intros E. unfold sha256_int. rewrite E. reflexivity. Qed.

Lemma sha256_int_abc :
  sha256_int "abc"
  = Ok (int_from_bytes_big (Sha256.digest (bytes_of_string "abc"))).
Proof. apply sha256_int_encode. reflexivity. Qed.

Lemma rsa_sign_nonneg message h d n :
  sha256_int message = Ok h -> n <> 0 -> 0 <= d ->
  rsa_sign message (d, n) = Ok (h ^ d mod n).
Proof.
  intros Hh Hn Hd. unfold rsa_sign. rewrite Hh. cbn [rbind].
  rewrite py_pow_nonneg by assumption. reflexivity.
Qed.

Lemma rsa_verify_nonneg message h signature e n :
  sha256_int message = Ok h -> n <> 0 -> 0 <= e ->
  rsa_verify message signature (e, n) = Ok (h =? signature ^ e mod n).
Proof.
  intros Hh Hn He. unfold rsa_verify. rewrite Hh. cbn [rbind].
  rewrite py_pow_nonneg by assumption. reflexivity.
Qed.

(** C9 (as the code has it). For a private key (d, n) with n >= 2 and a
    non-negative exponent d, [rsa_sign] returns h ^ d mod n, where h is
    the SHA-256 digest of the message read as a big-endian integer, and
    the signature lies in [0, n). *)
Theorem rsa_sign_value message bytes d n :
  encode_utf8 message = Ok bytes -> 2 <= n -> 0 <= d ->
  sha256_int message = Ok (int_from_bytes_big (Sha256.digest bytes)) /\
  rsa_sign message (d, n)
  = Ok (int_from_bytes_big (Sha256.digest bytes) ^ d mod n) /\
  0 <= int_from_bytes_big (Sha256.digest bytes) ^ d mod n < n.
Proof.
  intros He Hn Hd. pose proof (sha256_int_encode _ _ He) as Hh.
  split; [exact Hh|]. split.
  - apply rsa_sign_nonneg; [exact Hh|lia|lia].
  - apply Z.mod_pos_bound. lia.
Qed.

Lemma rsa_sign_value_witness :
  sha256_int "abc"
  = Ok (int_from_bytes_big (Sha256.digest (bytes_of_string "abc"))) /\
  rsa_sign "abc" (3, 143)
  = Ok (int_from_bytes_big (Sha256.digest (bytes_of_string "abc")) ^ 3 mod 143) /\
  0 <= int_from_bytes_big (Sha256.digest (bytes_of_string "abc")) ^ 3 mod 143
    < 143.
Proof.
  apply (rsa_sign_value "abc" (bytes_of_string "abc") 3 143);
    [reflexivity | lia | lia].
Defined.

(** C9 fails as stated: the claim leaves the sign of d open, and with a
    negative exponent and a digest that shares a factor with n the call
    raises instead of returning a signature. The digest of "abc" is a
    multiple of 5. *)
Lemma rsa_sign_negative_exponent_counterexample :
  2 <= 5 /\
  rsa_sign "abc" (-1, 5) = Raise ValueError /\
  ~ (exists s, rsa_sign "abc" (-1, 5) = Ok s /\ 0 <= s < 5).
Proof.
  assert (E : rsa_sign "abc" (-1, 5) = Raise ValueError)
    by (vm_compute; reflexivity).
  split; [lia|]. split; [exact E|].
  intros (s & Hs & _). rewrite E in Hs. discriminate.
Qed.




(** C8 (as the code has it). Neither function checks the key. With the
    modulus 0 both raise the ValueError of the built-in [pow]; with the
    modulus 1 both return (the signature 0, and the comparison of the
    digest with 0); with a negative modulus and a non-negative exponent
    both return as well. Here h is the digest integer of the message. *)
Theorem rsa_degenerate_modulus message h signature d e :
  sha256_int message = Ok h ->
  rsa_sign message (d, 0) = Raise ValueError /\
  rsa_verify message signature (e, 0) = Raise ValueError /\
  rsa_sign message (d, 1) = Ok 0 /\
  rsa_verify message signature (e, 1) = Ok (h =? 0) /\
  (forall n, n < 0 -> 0 <= d ->
             rsa_sign message (d, n) = Ok (h ^ d mod n)) /\
  (forall n, n < 0 -> 0 <= e ->
             rsa_verify message signature (e, n)
             = Ok (h =? signature ^ e mod n)).
Proof.
  intros Hh. unfold rsa_sign, rsa_verify. rewrite Hh. cbn [rbind].
  split; [reflexivity|]. split; [reflexivity|].
  split; [reflexivity|]. split; [reflexivity|]. split.
  - intros n Hn Hd. rewrite py_pow_nonneg by lia. reflexivity.
  - intros n Hn He. rewrite py_pow_nonneg by lia. reflexivity.
Qed.

Lemma rsa_degenerate_modulus_witness :
  rsa_sign "abc" (3, 0) = Raise ValueError /\
  rsa_verify "abc" 5 (3, 0) = Raise ValueError /\
  rsa_sign "abc" (3, 1) = Ok 0 /\
  rsa_verify "abc" 5 (3, 1)
  = Ok (int_from_bytes_big (Sha256.digest (bytes_of_string "abc")) =? 0) /\
  (forall n, n < 0 -> 0 <= 3 ->
             rsa_sign "abc" (3, n)
             = Ok (int_from_bytes_big (Sha256.digest (bytes_of_string "abc")) ^ 3
                   mod n)) /\
  (forall n, n < 0 -> 0 <= 3 ->
             rsa_verify "abc" 5 (3, n)
             = Ok (int_from_bytes_big (Sha256.digest (bytes_of_string "abc"))
                   =? 5 ^ 3 mod n)).
Proof.
  apply (rsa_degenerate_modulus "abc" _ 5 3 3). exact sha256_int_abc.
Defined.

(** C8 fails as stated: with n = 1 (and with n = -5) the signer and the
    verifier return values. *)
Lemma rsa_small_modulus_counterexample :
  1 <= 1 /\
  rsa_sign "abc" (3, 1) = Ok 0 /\
  rsa_verify "abc" 0 (3, 1) = Ok false /\
  rsa_sign "abc" (3, -5) = Ok 0 /\
  rsa_verify "abc" 0 (3, -5) = Ok false.
Proof.
  split; [lia|]. split; [|split; [|split]]; vm_compute; reflexivity.
Qed.

(** ** The Miller-Rabin test *)

Lemma split_twos_spec p :
  forall r0 r d,
    split_twos r0 p = (r, d) ->
    r0 <= r /\ Z.pos p = 2 ^ (r - r0) * d /\ Z.odd d = true /\ 0 < d.
Proof.
  induction p as [p IH|p IH|]; intros r0 r d H; cbn [split_twos] in H.
  - injection H as <- <-. rewrite Z.sub_diag. repeat split; lia.
  - destruct (IH _ _ _ H) as (Hle & Hp & Hodd & Hd).
    repeat split; trivial; try lia.
    replace (r - r0) with (Z.succ (r - (r0 + 1))) by lia.
    rewrite Z.pow_succ_r by lia. lia.
  - injection H as <- <-. rewrite Z.sub_diag. repeat split; lia.
Qed.

(** [n - 1 = 2^r * d] with [d] odd. *)
Lemma decompose_spec m r d :
  0 < m -> decompose m = (r, d) ->
  0 <= r /\ m = 2 ^ r * d /\ Z.odd d = true /\ 0 < d.
Proof.
  intros Hm H. destruct m as [|p|p]; try lia.
  cbn [decompose] in H.
  destruct (split_twos_spec _ _ _ _ H) as (Hle & Hp & Hodd & Hd).
  rewrite Z.sub_0_r in Hp. auto.
Qed.

Lemma divide_small n y : (n | y) -> - n < y < n -> y = 0.
Proof.
  intros [k ->] H. assert (0 < n) by lia.
  assert (k = 0); [|subst; reflexivity].
  destruct (Z.lt_trichotomy k 0) as [Hk|[Hk|Hk]]; [nia|exact Hk|nia].
Qed.

(** Modulo a prime the only square roots of 1 are 1 and -1. *)
Lemma sqrt_one_prime n x :
  Z.prime n -> 0 <= x < n -> (x * x) mod n = 1 -> x = 1 \/ x = n - 1.
Proof.
  intros Hp Hx H. pose proof (Z.prime_ge_2 _ Hp) as Hn.
  assert (Hdiv : (n | (x - 1) * (x + 1))).
  { apply Z.mod_divide; [lia|].
    replace ((x - 1) * (x + 1)) with (x * x - 1) by ring.
    rewrite Zminus_mod, H, Z.mod_1_l by lia. reflexivity. }
  apply Z.divide_prime_mul in Hdiv; trivial.
  destruct Hdiv as [Hd|Hd].
  - left. assert (x <> 0).
    { intros ->. rewrite Z.mod_0_l in H by lia. discriminate. }
    apply divide_small in Hd; lia.
  - right. destruct Hd as [k Hk].
    assert (k = 1); [|subst; lia].
    destruct (Z.lt_trichotomy k 1) as [Hlt|[Heq|Hgt]]; [nia|exact Heq|nia].
Qed.

(** Going down the chain of squarings from [a^(2^r * d) = 1]: either the
    bottom is 1, or some level is -1. *)
Lemma mr_chain n a d :
  Z.prime n ->
  forall r : nat,
    a ^ (2 ^ Z.of_nat r * d) mod n = 1 ->
    a ^ d mod n = 1 \/
    exists j : nat, (j < r)%nat /\ a ^ (2 ^ Z.of_nat j * d) mod n = n - 1.
Proof.
  intros Hp. pose proof (Z.prime_ge_2 _ Hp) as Hn.
  induction r as [|r IH]; intros H.
  - left. rewrite Z.pow_0_r, Z.mul_1_l in H. exact H.
  - rewrite Nat2Z.inj_succ, Z.pow_succ_r, <- Z.mul_assoc, Z.pow_twice_r in H
      by lia.
    rewrite Zmult_mod in H.
    apply sqrt_one_prime in H; trivial; [|apply Z.mod_pos_bound; lia].
    destruct H as [H|H].
    + destruct (IH H) as [Hd|(j & Hj & Hd)]; [left; exact Hd|].
      right. exists j. split; [lia|exact Hd].
    + right. exists r. split; [lia|exact H].
Qed.

Lemma squarings_hit n :
  2 <= n ->
  forall (j : nat) x,
    (exists i : nat, (1 <= i <= j)%nat /\ x ^ (2 ^ Z.of_nat i) mod n = n - 1) ->
    squarings j x n = Ok true.
Proof.
  intros Hn. induction j as [|j IH]; intros x (i & Hi & Hx); [lia|].
  cbn [squarings]. rewrite py_pow_nonneg by lia. cbn [rbind].
  destruct (Z.eqb_spec (x ^ 2 mod n) (n - 1)) as [|Hne]; [reflexivity|].
  apply IH. destruct i as [|[|i]]; [lia| |].
  - exfalso. apply Hne. exact Hx.
  - exists (S i). split; [lia|].
    rewrite Z.mod_pow_l, <- Z.pow_mul_r by lia.
    rewrite <- Hx. do 2 f_equal.
    rewrite (Nat2Z.inj_succ (S i)), Z.pow_succ_r by lia. reflexivity.
Qed.

Lemma randrange_run start stop t :
  start < stop ->
  randrange start stop t
  = Some (Ok (start + t O mod (stop - start), advance t)) /\
  start <= start + t O mod (stop - start) < stop.
Proof.
  intros H. unfold randrange.
  destruct (Z.leb_spec stop start); [lia|]. split; [reflexivity|].
  pose proof (Z.mod_pos_bound (t O) (stop - start)). lia.
Qed.

(** For a prime [n] every round passes, whatever base is drawn. *)
Lemma rounds_prime n r d :
  Z.prime n -> 5 <= n -> decompose (n - 1) = (r, d) ->
  forall (k : nat) t, returns (rounds k n r d) t true.
Proof.
  intros Hp Hn Hdec.
  destruct (decompose_spec (n - 1) r d) as (Hr & Hrd & _ & Hd);
    [lia|exact Hdec|].
  induction k as [|k IH]; intros t; [eexists; reflexivity|].
  unfold returns. cbn [rounds]. unfold bind at 1.
  destruct (randrange_run 2 (n - 2) t) as [-> Ha]; [lia|].
  set (a := 2 + t O mod (n - 2 - 2)) in *.
  unfold bind at 1. rewrite py_pow_nonneg by lia. cbn [lift].
  destruct ((a ^ d mod n =? 1) || (a ^ d mod n =? n - 1)) eqn:Hx; [apply IH|].
  apply orb_false_iff in Hx. destruct Hx as [Hx1 Hx2].
  apply Z.eqb_neq in Hx1, Hx2.
  assert (Hfermat : a ^ (2 ^ Z.of_nat (Z.to_nat r) * d) mod n = 1).
  { rewrite Z2Nat.id, <- Hrd by lia. apply Z.fermat_nz; trivial.
    rewrite Z.mod_small; lia. }
  destruct (mr_chain _ _ _ Hp _ Hfermat) as [H1|(j & Hj & Hm)];
    [contradiction|].
  assert (Hhit : squarings (Z.to_nat (r - 1)) (a ^ d mod n) n = Ok true).
  { apply squarings_hit; [lia|]. exists j. split.
    - destruct j as [|j]; [|lia].
      rewrite Z.pow_0_r, Z.mul_1_l in Hm. contradiction.
    - rewrite Z.mod_pow_l, <- Z.pow_mul_r by lia.
      rewrite Z.mul_comm. exact Hm. }
  unfold bind at 1. rewrite Hhit. cbn [lift]. apply IH.
Qed.

Lemma small_primes_ge_2 p : In p small_primes -> 2 <= p.
Proof.
  unfold small_primes. cbn [In].
  intros H. repeat (destruct H as [<-|H]; [lia|]). contradiction.
Qed.

(** Trial division does not reject a prime outside the table. *)
Lemma trial_division_prime n :
  Z.prime n ->
  existsb (Z.eqb n) small_primes = false ->
  existsb (fun p => n mod p =? 0) small_primes = false.
Proof.
  intros Hp Hnot. destruct (existsb (fun p => n mod p =? 0) small_primes) eqn:E;
    [|reflexivity].
  apply existsb_exists in E. destruct E as (p & Hin & Hmod).
  pose proof (small_primes_ge_2 _ Hin) as Hp2.
  pose proof (Z.prime_ge_2 _ Hp) as Hn.
  apply Z.eqb_eq, Z.mod_divide in Hmod; [|lia].
  destruct (Z.divide_prime_r _ _ Hp Hmod) as [H|[H|[H|H]]]; try lia.
  assert (existsb (Z.eqb n) small_primes = true); [|congruence].
  apply existsb_exists. exists p. split; [exact Hin|]. apply Z.eqb_eq. lia.
Qed.

Lemma is_prime_complete n :
  Z.prime n -> forall k t, returns (is_prime n k) t true.
Proof.
  intros Hp k t. pose proof (Z.prime_ge_2 _ Hp) as Hn.
  unfold is_prime. destruct (Z.ltb_spec n 2); [lia|].
  destruct (existsb (Z.eqb n) small_primes) eqn:Htab; [eexists; reflexivity|].
  rewrite (trial_division_prime _ Hp Htab).
  assert (5 <= n).
  { pose proof (trial_division_prime _ Hp Htab) as Htd.
    assert (n <> 2) by (intros ->; discriminate Htab).
    assert (n <> 3) by (intros ->; discriminate Htab).
    assert (n <> 4) by (intros ->; discriminate Htd).
    lia. }
  destruct (decompose (n - 1)) as [r d] eqn:Hdec.
  apply rounds_prime; trivial.
Qed.

(** C4. The test is one-sided: a prime is accepted for every number of
    rounds and every sequence of random bases. *)
Theorem is_prime_accepts_primes n k t :
  Z.prime n -> 2 <= n -> 1 <= k -> returns (is_prime n k) t true.
Proof. intros Hp _ _. apply is_prime_complete. exact Hp. Qed.

Lemma prime_by_trial_sound p : prime_by_trial p = true -> Z.prime p.
Proof.
  unfold prime_by_trial. intros H. apply andb_true_iff in H.
  destruct H as [H1 Hall]. apply Z.ltb_lt in H1. split; [exact H1|].
  intros n Hn Hdiv. rewrite forallb_forall in Hall.
  specialize (Hall (Z.to_nat n)). rewrite Z2Nat.id in Hall by lia.
  assert (Hin : In (Z.to_nat n) (seq 2 (Z.to_nat p - 2))) by (apply in_seq; lia).
  apply Hall in Hin. apply negb_true_iff, Z.eqb_neq in Hin.
  apply Hin, Z.mod_divide; [lia|exact Hdiv].
Qed.

Lemma is_prime_accepts_primes_witness :
  returns (is_prime 29 10) (tape_of [5; 7; 11] 3) true.
Proof.
  apply is_prime_accepts_primes;
    [apply prime_by_trial_sound; vm_compute; reflexivity | lia | lia].
Defined.

Lemma randrange_returns start stop t a :
  returns (randrange start stop) t a ->
  start < stop /\ a = start + t O mod (stop - start).
Proof.
  intros [t' H]. unfold randrange in H.
  destruct (Z.leb_spec stop start); [discriminate|].
  injection H as <- _. split; [lia|reflexivity].
Qed.

(** One round, with the draw of its base and the call of [pow] resolved. *)
Lemma rounds_unfold n r d k t :
  5 <= n -> 0 <= d ->
  rounds (S k) n r d t
  = let x := (2 + t O mod (n - 2 - 2)) ^ d mod n in
    if (x =? 1) || (x =? n - 1) then rounds k n r d (advance t)
    else
      match squarings (Z.to_nat (r - 1)) x n with
      | Ok true => rounds k n r d (advance t)
      | Ok false => Some (Ok (false, advance t))
      | Raise e => Some (Raise e)
      end.
Proof.
  intros Hn Hd. cbn [rounds]. unfold bind at 1.
  destruct (randrange_run 2 (n - 2) t) as [-> _]; [lia|].
  unfold bind at 1. rewrite py_pow_nonneg by lia. cbn [lift]. cbv zeta.
  destruct (_ || _); [reflexivity|].
  unfold bind, lift, ret.
  destruct (squarings _ _ _) as [[|]|e]; reflexivity.
Qed.

(** C5 (what the code does). A round of the test on n >= 5, where
    n - 1 = 2^r * d with d odd, runs on the base a that
    [randrange(2, n - 2)] returns: a lies in [2, n - 3], and the round is
    decided by x = a ^ d mod n and its squarings. Every integer of
    [2, n - 3] is the base of the round on some random value; n - 2 never
    is, the upper bound of [randrange] being exclusive. *)
Theorem miller_rabin_base_range n r d :
  5 <= n -> decompose (n - 1) = (r, d) ->
  let round k a t :=
    let x := a ^ d mod n in
    if (x =? 1) || (x =? n - 1) then rounds k n r d (advance t)
    else
      match squarings (Z.to_nat (r - 1)) x n with
      | Ok true => rounds k n r d (advance t)
      | Ok false => Some (Ok (false, advance t))
      | Raise e => Some (Raise e)
      end in
  n - 1 = 2 ^ r * d /\ Z.odd d = true /\
  (forall k t, exists a,
      randrange 2 (n - 2) t = Some (Ok (a, advance t)) /\
      2 <= a <= n - 3 /\
      rounds (S k) n r d t = round k a t) /\
  (forall k a, 2 <= a <= n - 3 -> exists t,
      randrange 2 (n - 2) t = Some (Ok (a, advance t)) /\
      rounds (S k) n r d t = round k a t).
Proof.
  intros Hn Hdec round.
  destruct (decompose_spec (n - 1) r d) as (Hr & Hrd & Hodd & Hd);
    [lia|exact Hdec|].
  split; [exact Hrd|]. split; [exact Hodd|]. split.
  - intros k t. destruct (randrange_run 2 (n - 2) t) as [E Ha]; [lia|].
    eexists. split; [exact E|]. split; [lia|].
    apply rounds_unfold; lia.
  - intros k a Ha. exists (fun _ => a - 2).
    destruct (randrange_run 2 (n - 2) (fun _ => a - 2)) as [E _]; [lia|].
    assert (Ea : 2 + (a - 2) mod (n - 2 - 2) = a)
      by (rewrite Z.mod_small by lia; lia).
    split.
    + rewrite E, Ea. reflexivity.
    + rewrite rounds_unfold by lia. cbv beta. rewrite Ea. reflexivity.
Qed.

Lemma miller_rabin_base_range_witness :
  29 - 1 = 2 ^ 2 * 7 /\
  exists a,
    randrange 2 (29 - 2) (tape_of [25] 0)
    = Some (Ok (a, advance (tape_of [25] 0))) /\
    2 <= a <= 29 - 3 /\
    outcome (rounds 1 29 2 7) (tape_of [25] 0) = Some (Ok true).
Proof.
  destruct (miller_rabin_base_range 29 2 7) as (Hrd & _ & Hround & _);
    [lia | reflexivity | ].
  split; [exact Hrd|].
  destruct (Hround O (tape_of [25] 0)) as (a & Ha & Hr & _).
  exists a. split; [exact Ha|]. split; [exact Hr|].
  vm_compute. reflexivity.
Defined.

(** ** Running randomized computations *)

Lemma outcome_returns {A : Type} (m : Rand A) t a :
  outcome m t = Some (Ok a) <-> returns m t a.
Proof.
  unfold outcome, returns. split.
  - destruct (m t) as [[[a' t']|e]|]; intros H; try discriminate.
    injection H as ->. eauto.
  - intros [t' ->]. reflexivity.
Qed.

Lemma bind_returns {A B : Type} (m : Rand A) (f : A -> Rand B) t b :
  returns (bind m f) t b ->
  exists a t1, m t = Some (Ok (a, t1)) /\ returns (f a) t1 b.
Proof.
  unfold returns, bind. intros [t' H].
  destruct (m t) as [[[a t1]|e]|]; try discriminate. eauto.
Qed.

Lemma lift_returns {A : Type} (r : result A) t a :
  returns (lift r) t a -> r = Ok a.
Proof.
  unfold returns, lift. intros [t' H].
  destruct r; [injection H as -> _; reflexivity|discriminate].
Qed.

Lemma ret_returns {A : Type} (a b : A) t : returns (ret a) t b -> a = b.
Proof. unfold returns, ret. intros [t' H]. injection H as -> _. reflexivity. Qed.

(** ** The prime generator *)

Lemma is_prime_true_ge_2 n k t : returns (is_prime n k) t true -> 2 <= n.
Proof.
  unfold is_prime. destruct (Z.ltb_spec n 2) as [Hlt|Hge]; [|lia].
  intros H. apply ret_returns in H. discriminate.
Qed.

(** Forcing the bottom and the top bit. *)
Lemma candidate_shape bits g :
  1 <= bits ->
  let c := Z.lor (Z.lor (g mod 2 ^ bits) 1) (2 ^ (bits - 1)) in
  bit_length c = bits /\ Z.odd c = true.
Proof.
  intros Hb c.
  assert (Hg : 0 <= g mod 2 ^ bits < 2 ^ bits)
    by (apply Z.mod_pos_bound, Z.pow_pos_nonneg; lia).
  assert (Hodd : Z.odd c = true).
  { unfold c. rewrite <- Z.bit0_odd, !Z.lor_spec.
    rewrite orb_true_r. reflexivity. }
  assert (Hpos : 0 <= c).
  { unfold c. rewrite !Z.lor_nonneg. repeat split; lia. }
  assert (Hlog : Z.log2 c = bits - 1).
  { unfold c.
    rewrite !Z.log2_lor, Z.log2_pow2; [ | rewrite ?Z.lor_nonneg; lia ..].
    assert (Z.log2 (g mod 2 ^ bits) <= bits - 1).
    { destruct (Z.eq_dec (g mod 2 ^ bits) 0) as [->|Hne]; [simpl; lia|].
      assert (Z.log2 (g mod 2 ^ bits) < bits)
        by (apply Z.log2_lt_pow2; lia).
      lia. }
    change (Z.log2 1) with 0. lia. }
  split; [|exact Hodd].
  unfold bit_length. destruct (Z.eqb_spec c 0) as [E|_].
  - rewrite E in Hodd. discriminate.
  - rewrite Z.abs_eq by exact Hpos. lia.
Qed.

Lemma generate_large_prime_sampled fuel bits :
  forall t c,
    returns (generate_large_prime fuel bits) t c -> sampled bits c.
Proof.
  induction fuel as [|fuel IH]; intros t c H.
  - destruct H as [t' H]. discriminate.
  - cbn [generate_large_prime] in H.
    apply bind_returns in H. destruct H as (g & t1 & Hg & H).
    unfold getrandbits in Hg.
    destruct (Z.ltb_spec bits 0) as [|Hb0]; [discriminate|].
    injection Hg as <- <-.
    apply bind_returns in H. destruct H as (top & t2 & Htop & H).
    assert (Htop' : returns (lift (py_lshift 1 (bits - 1))) (advance t) top)
      by (eexists; exact Htop).
    apply lift_returns in Htop'. unfold py_lshift in Htop'.
    destruct (Z.ltb_spec (bits - 1) 0) as [|Hb1]; [discriminate|].
    injection Htop' as <-. rewrite Z.shiftl_1_l in H.
    apply bind_returns in H. destruct H as (ok & t3 & Hok & H).
    destruct ok.
    + apply ret_returns in H. subst c.
      destruct (candidate_shape bits (t O)) as [Hlen Hodd]; [lia|].
      split; [exact Hlen|]. split; [exact Hodd|].
      exists t2. exists t3. exact Hok.
    + apply (IH _ _ H).
Qed.

(** ** Key generation *)

Lemma sampled_ge_3 bits x : sampled bits x -> 3 <= x.
Proof.
  intros (_ & Hodd & t & Hacc). apply is_prime_true_ge_2 in Hacc.
  destruct (Z.eq_dec x 2) as [->|]; [discriminate|lia].
Qed.

(** [pow(e, -1, phi)] when the inverse exists. *)
Lemma py_pow_inverse e phi :
  2 <= phi -> Z.gcd e phi = 1 ->
  exists d, py_pow e (-1) phi = Ok d /\ 0 <= d < phi /\ (e * d) mod phi = 1.
Proof.
  intros Hphi Hgcd. unfold py_pow.
  destruct (Z.eqb_spec phi 0); [lia|].
  destruct (Z.eqb_spec (Z.abs phi) 1); [lia|].
  cbn [Z.ltb Z.compare]. rewrite Hgcd. cbn [Z.eqb Pos.eqb].
  eexists. split; [reflexivity|].
  rewrite Z.abs_eq by lia. cbn [Z.opp pow_mod pow_mod_pos].
  split; [apply Z.mod_pos_bound; lia|].
  rewrite Zmult_mod_idemp_r, Z.mul_comm.
  apply Z.invmod_coprime; trivial.
Qed.

Lemma keypair_loop_sound inner bits fuel :
  forall t pub priv,
    returns (generate_rsa_keypair_loop fuel inner bits) t (pub, priv) ->
    exists p q d,
      pub = (65537, p * q) /\ priv = (d, p * q) /\
      p <> q /\ sampled (bits / 2) p /\ sampled (bits / 2) q /\
      Z.gcd 65537 ((p - 1) * (q - 1)) = 1 /\
      (65537 * d) mod ((p - 1) * (q - 1)) = 1 /\
      0 <= d < (p - 1) * (q - 1).
Proof.
  induction fuel as [|fuel IH]; intros t pub priv H.
  - destruct H as [t' H]. discriminate.
  - cbn [generate_rsa_keypair_loop] in H.
    apply bind_returns in H. destruct H as (p & t1 & Hp & H).
    apply bind_returns in H. destruct H as (q & t2 & Hq & H).
    assert (Sp : sampled (bits / 2) p)
      by (apply (generate_large_prime_sampled inner _ t); eexists; exact Hp).
    assert (Sq : sampled (bits / 2) q)
      by (apply (generate_large_prime_sampled inner _ t1); eexists; exact Hq).
    destruct (Z.eqb_spec p q) as [|Hne]; [apply (IH _ _ _ H)|].
    destruct (Z.eqb_spec (Z.gcd 65537 ((p - 1) * (q - 1))) 1) as [Hgcd|];
      [|apply (IH _ _ _ H)].
    apply bind_returns in H. destruct H as (d & t3 & Hd & H).
    apply ret_returns in H. injection H as <- <-.
    assert (Hd' : returns (lift (py_pow 65537 (-1) ((p - 1) * (q - 1)))) t2 d)
      by (eexists; exact Hd).
    apply lift_returns in Hd'.
    pose proof (sampled_ge_3 _ _ Sp). pose proof (sampled_ge_3 _ _ Sq).
    destruct (py_pow_inverse 65537 ((p - 1) * (q - 1))) as (d' & E & Hr & Hm);
      [nia|exact Hgcd|].
    rewrite E in Hd'. injection Hd' as ->.
    exists p, q, d.
    split; [reflexivity|]. split; [reflexivity|]. split; [exact Hne|].
    split; [exact Sp|]. split; [exact Sq|]. split; [exact Hgcd|].
    split; [exact Hm|exact Hr].
Qed.

(** C2 (as the code has it). A key pair returned by [generate_rsa_keypair]
    is ((e, n), (d, n)) with e = 65537 and n = p * q for two distinct
    sampled integers p and q, each odd, of bits // 2 bits and accepted by
    the Miller-Rabin test; gcd(e, (p-1)(q-1)) = 1 and
    (e * d) mod (p-1)(q-1) = 1. *)
Theorem generate_rsa_keypair_invariant fuel bits t pub priv :
  returns (generate_rsa_keypair fuel bits) t (pub, priv) ->
  exists p q,
    fst pub = 65537 /\ snd pub = p * q /\ snd priv = snd pub /\
    p <> q /\ sampled (bits / 2) p /\ sampled (bits / 2) q /\
    Z.gcd (fst pub) ((p - 1) * (q - 1)) = 1 /\
    (fst pub * fst priv) mod ((p - 1) * (q - 1)) = 1.
Proof.
  intros H. apply keypair_loop_sound in H.
  destruct H as (p & q & d & -> & -> & Hne & Sp & Sq & Hgcd & Hed & _).
  exists p, q. cbn [fst snd].
  split; [reflexivity|]. split; [reflexivity|]. split; [reflexivity|].
  split; [exact Hne|]. split; [exact Sp|]. split; [exact Sq|].
  split; [exact Hgcd|exact Hed].
Qed.

Lemma generate_rsa_keypair_invariant_witness :
  exists p q,
    65537 = 65537 /\ 143 = p * q /\ 143 = 143 /\
    p <> q /\ sampled (8 / 2) p /\ sampled (8 / 2) q /\
    Z.gcd 65537 ((p - 1) * (q - 1)) = 1 /\
    (65537 * 113) mod ((p - 1) * (q - 1)) = 1.
Proof.
  apply (generate_rsa_keypair_invariant 1 8 (tape_of [3; 5] 0)
           (65537, 143) (113, 143)).
  apply outcome_returns. vm_compute. reflexivity.
Defined.

(** C2 fails as stated: with the draws below the first sampled factor is
    841 = 29 * 29, which the ten rounds accept on the base 14, and the
    returned modulus 439843 = 29 * 29 * 523 is not a product of two primes. *)
Lemma generate_rsa_keypair_counterexample :
  returns (generate_rsa_keypair 1 20)
          (tape_of [329; 12; 12; 12; 12; 12; 12; 12; 12; 12; 12; 11] 5)
          ((65537, 439843), (141713, 439843)) /\
  ~ (exists p q, Z.prime p /\ Z.prime q /\ 439843 = p * q).
Proof.
  split.
  - apply outcome_returns. vm_compute. reflexivity.
  - intros (p & q & Hp & Hq & Hn).
    assert (P29 : Z.prime 29)
      by (apply prime_by_trial_sound; vm_compute; reflexivity).
    assert (Hdiv : (29 | p * q)) by (rewrite <- Hn; exists 15167; reflexivity).
    apply Z.divide_prime_mul in Hdiv; [|exact P29].
    destruct Hdiv as [Hd|Hd];
      apply Z.divide_prime_prime in Hd; trivial; subst.
    + assert (q = 15167) by lia. subst q.
      assert (Hd : (29 | 15167)) by (exists 523; reflexivity).
      apply Z.divide_prime_prime in Hd; trivial. discriminate.
    + assert (p = 15167) by lia. subst p.
      assert (Hd : (29 | 15167)) by (exists 523; reflexivity).
      apply Z.divide_prime_prime in Hd; trivial. discriminate.
Qed.

(** ** The digest as an integer *)

Lemma be_bytes_range n : forall x, Forall (fun b => 0 <= b < 256) (Sha256.be_bytes n x).
Proof.
  induction n as [|n IH]; intros x; cbn [Sha256.be_bytes]; [constructor|].
  apply Forall_app. split; [apply IH|].
  constructor; [apply Z.mod_pos_bound; lia|constructor].
Qed.

Lemma be_bytes_length n : forall x, List.length (Sha256.be_bytes n x) = n.
Proof.
  induction n as [|n IH]; intros x; cbn [Sha256.be_bytes]; [reflexivity|].
  rewrite length_app, IH. cbn [List.length]. lia.
Qed.

Lemma int_from_bytes_big_range bs :
  Forall (fun b => 0 <= b < 256) bs ->
  0 <= int_from_bytes_big bs < 256 ^ Z.of_nat (List.length bs).
Proof.
  induction bs as [|b bs IH] using rev_ind; intros H.
  - cbn. lia.
  - apply Forall_app in H. destruct H as [Hbs Hb].
    apply Forall_inv in Hb. specialize (IH Hbs).
    rewrite int_from_bytes_big_snoc, length_app. cbn [List.length].
    rewrite Nat2Z.inj_add, Z.pow_add_r by lia.
    change (256 ^ Z.of_nat 1) with 256. nia.
Qed.

Lemma sha256_int_inv message h :
  sha256_int message = Ok h ->
  exists bytes,
    encode_utf8 message = Ok bytes /\
    h = int_from_bytes_big (Sha256.digest bytes).
Proof.
  unfold sha256_int. destruct (encode_utf8 message) as [bytes|e];
    [|discriminate].
  cbn [rbind]. intros H. injection H as <-. eauto.
Qed.

(** The digest is an integer of 256 bits. *)
Lemma digest_int_range bytes :
  0 <= int_from_bytes_big (Sha256.digest bytes) < 2 ^ 256.
Proof.
  unfold Sha256.digest.
  set (s := Sha256.hash bytes).
  match goal with |- 0 <= int_from_bytes_big ?bs < _ =>
    assert (Hr : Forall (fun b => 0 <= b < 256) bs);
    [|assert (Hl : List.length bs = 32%nat)] end.
  - cbn [flat_map]. repeat (apply Forall_app; split; [apply be_bytes_range|]).
    constructor.
  - cbn [flat_map]. rewrite !length_app, !be_bytes_length. reflexivity.
  - apply int_from_bytes_big_range in Hr. rewrite Hl in Hr. exact Hr.
Qed.

Lemma sha256_int_range message h :
  sha256_int message = Ok h -> 0 <= h < 2 ^ 256.
Proof.
  intros H. apply sha256_int_inv in H. destruct H as (bytes & _ & ->).
  apply digest_int_range.
Qed.

(** ** Correctness of textbook RSA *)

(** Fermat: exponents may be reduced modulo p - 1, up to one factor. *)
Lemma fermat_cycle p h j :
  Z.prime p -> 0 <= j -> h ^ (1 + j * (p - 1)) mod p = h mod p.
Proof.
  intros Hp Hj. pose proof (Z.prime_ge_2 _ Hp) as Hp2.
  rewrite Z.pow_add_r, Z.pow_1_r by nia.
  destruct (Z.eq_dec (h mod p) 0) as [H0|Hnz].
  - rewrite Zmult_mod, H0. rewrite Z.mul_0_l. apply Z.mod_0_l. lia.
  - replace (j * (p - 1)) with ((p - 1) * j) by ring.
    rewrite Z.pow_mul_r by lia.
    rewrite Zmult_mod, <- (Z.mod_pow_l (h ^ (p - 1))).
    rewrite (Z.fermat_nz _ _ Hp Hnz), Z.pow_1_l by lia.
    rewrite Z.mod_1_l by lia. rewrite Z.mul_1_r. apply Zmod_mod.
Qed.

Lemma cong_divide a b m : m <> 0 -> a mod m = b mod m -> (m | a - b).
Proof.
  intros Hm H. apply Z.mod_divide; [exact Hm|].
  rewrite Zminus_mod, H, Z.sub_diag. apply Z.mod_0_l. exact Hm.
Qed.

Lemma divide_cong a b m : (m | a - b) -> a mod m = b mod m.
Proof.
  intros [k Hk]. replace a with (b + k * m) by lia. apply Z_mod_plus_full.
Qed.

Lemma rsa_cycle p q h k :
  Z.prime p -> Z.prime q -> p <> q -> 0 <= k ->
  h ^ (1 + k * ((p - 1) * (q - 1))) mod (p * q) = h mod (p * q).
Proof.
  intros Hp Hq Hne Hk.
  pose proof (Z.prime_ge_2 _ Hp). pose proof (Z.prime_ge_2 _ Hq).
  set (x := h ^ (1 + k * ((p - 1) * (q - 1)))).
  assert (Dp : (p | x - h)).
  { apply cong_divide; [lia|]. unfold x.
    replace (k * ((p - 1) * (q - 1))) with (k * (q - 1) * (p - 1)) by ring.
    apply fermat_cycle; [exact Hp|nia]. }
  assert (Dq : (q | x - h)).
  { apply cong_divide; [lia|]. unfold x.
    replace (k * ((p - 1) * (q - 1))) with (k * (p - 1) * (q - 1)) by ring.
    apply fermat_cycle; [exact Hq|nia]. }
  apply divide_cong. destruct Dp as [c Hc]. rewrite Hc in *.
  assert (Hqc : (q | c)).
  { apply (Z.gauss q p c); [rewrite Z.mul_comm; exact Dq|].
    apply Z.coprime_prime_l; [exact Hq|].
    intros Hd. apply Z.divide_prime_prime in Hd; trivial. congruence. }
  destruct Hqc as [c' ->]. exists c'. ring.
Qed.

(** A product of two integers above 1 that is a product of two primes has
    these primes as its factors. *)
Lemma semiprime_factors p0 q0 p q :
  2 <= p0 -> 2 <= q0 -> Z.prime p -> Z.prime q -> p0 * q0 = p * q ->
  Z.prime p0 /\ Z.prime q0.
Proof.
  intros Hp0 Hq0 Hp Hq E.
  pose proof (Z.prime_ge_2 _ Hp). pose proof (Z.prime_ge_2 _ Hq).
  assert (Hdiv : (p | p0 * q0)) by (rewrite E; exists q; ring).
  apply Z.divide_prime_mul in Hdiv; [|exact Hp].
  destruct Hdiv as [[k Hk]|[k Hk]].
  - assert (Hq0q : (q0 | q)) by (exists k; nia).
    destruct (Z.divide_prime_r _ _ Hq Hq0q) as [?|[?|[?|?]]]; try lia.
    subst q0. assert (k = 1) by nia. subst k.
    rewrite Z.mul_1_l in Hk. subst p0. split; assumption.
  - assert (Hp0q : (p0 | q)) by (exists k; nia).
    destruct (Z.divide_prime_r _ _ Hq Hp0q) as [?|[?|[?|?]]]; try lia.
    subst p0. assert (k = 1) by nia. subst k.
    rewrite Z.mul_1_l in Hk. subst q0. split; assumption.
Qed.

(** C1 (as the code has it). For a key pair returned by
    [generate_rsa_keypair] whose modulus n is in fact a product of two
    primes, signing a message and verifying the signature returns True
    exactly when the digest integer of the message is below n; this is so
    for every message once n >= 2^256. *)
Theorem rsa_sign_verify_roundtrip fuel bits t pub priv message h :
  returns (generate_rsa_keypair fuel bits) t (pub, priv) ->
  (exists p q, Z.prime p /\ Z.prime q /\ snd pub = p * q) ->
  sha256_int message = Ok h ->
  exists s,
    rsa_sign message priv = Ok s /\
    rsa_verify message s pub = Ok (h <? snd pub) /\
    (2 ^ 256 <= snd pub -> rsa_verify message s pub = Ok true).
Proof.
  intros H (p' & q' & Hp' & Hq' & Hn) Hdig.
  apply keypair_loop_sound in H.
  destruct H as (p & q & d & -> & -> & Hne & Sp & Sq & Hgcd & Hed & Hd).
  cbn [snd] in Hn.
  pose proof (sampled_ge_3 _ _ Sp) as Hp3.
  pose proof (sampled_ge_3 _ _ Sq) as Hq3.
  destruct (semiprime_factors p q p' q') as [Hp Hq]; try assumption; try lia.
  pose proof (sha256_int_range message h Hdig) as Hh.
  assert (Hcyc : (h ^ d mod (p * q)) ^ 65537 mod (p * q) = h mod (p * q)).
  { rewrite Z.mod_pow_l, <- Z.pow_mul_r by lia.
    pose proof (Z.div_mod (65537 * d) ((p - 1) * (q - 1)) ltac:(nia)) as Hdm.
    rewrite Hed in Hdm.
    replace (d * 65537)
      with (1 + (65537 * d / ((p - 1) * (q - 1))) * ((p - 1) * (q - 1)))
      by lia.
    apply rsa_cycle; trivial.
    apply Z.div_pos; nia. }
  assert (Hv : rsa_verify message (h ^ d mod (p * q)) (65537, p * q)
               = Ok (h <? p * q)).
  { rewrite (rsa_verify_nonneg message h) by (trivial; nia).
    rewrite Hcyc. f_equal.
    destruct (Z.ltb_spec h (p * q)) as [Hlt|Hge].
    - rewrite Z.mod_small by lia. apply Z.eqb_refl.
    - apply Z.eqb_neq. pose proof (Z.mod_pos_bound h (p * q)). nia. }
  exists (h ^ d mod (p * q)). split; [|split].
  - apply rsa_sign_nonneg; trivial; nia.
  - exact Hv.
  - cbn [snd]. intros Hbig. rewrite Hv. f_equal. apply Z.ltb_lt. lia.
Qed.

Lemma rsa_sign_verify_roundtrip_witness :
  exists s,
    rsa_sign "abc" (113, 143) = Ok s /\
    rsa_verify "abc" s (65537, 143)
    = Ok (int_from_bytes_big (Sha256.digest (bytes_of_string "abc")) <? 143) /\
    (2 ^ 256 <= 143 -> rsa_verify "abc" s (65537, 143) = Ok true).
Proof.
  apply (rsa_sign_verify_roundtrip 1 8 (tape_of [3; 5] 0)
           (65537, 143) (113, 143) "abc").
  - apply outcome_returns. vm_compute. reflexivity.
  - exists 11, 13.
    split; [apply prime_by_trial_sound; vm_compute; reflexivity|].
    split; [apply prime_by_trial_sound; vm_compute; reflexivity|].
    reflexivity.
  - exact sha256_int_abc.
Defined.

(** C1 fails as stated: [generate_rsa_keypair(8)] can return the key pair
    below (p = 11, q = 13), and the signature of "abc" under it does not
    verify, the digest being larger than the modulus. *)
Lemma rsa_sign_verify_counterexample :
  returns (generate_rsa_keypair 1 8) (tape_of [3; 5] 0)
          ((65537, 143), (113, 143)) /\
  exists s,
    rsa_sign "abc" (113, 143) = Ok s /\
    rsa_verify "abc" s (65537, 143) = Ok false.
Proof.
  split.
  - apply outcome_returns. vm_compute. reflexivity.
  - exists 13. split; vm_compute; reflexivity.
Qed.

Lemma miner_returns_first_match_witness :
  exists msg h n0,
    [PyStr "Sam9";
     PyStr "0a5f9194343870d97bcf58de60dfb722300880d64411e08ba054a6227fc11a49";
     PyInt 9] = [PyStr msg; PyStr h; PyInt n0] /\
    first_match "Sam" "0" n0.
Proof.
  apply (proj1 (miner_returns_first_match "Sam" "0" (0, 1)) 10%nat).
  vm_compute. reflexivity.
Defined.

Lemma miner_result_shape_witness :
  exists n0 h, 0 <= n0 /\
    sha256_hexdigest ("Sam" ++ str n0) = Ok h /\
    [PyStr "Sam9";
     PyStr "0a5f9194343870d97bcf58de60dfb722300880d64411e08ba054a6227fc11a49";
     PyInt 9] = [PyStr ("Sam" ++ str n0); PyStr h; PyInt n0].
Proof.
  apply (proj1 (miner_result_shape "Sam" "0" (0, 1) 10%nat _)).
  vm_compute. reflexivity.
Defined.

(** * Further properties of the code *)

(** ** What a run of [is_prime] does *)

Lemma returns_functional {A : Type} (m : Rand A) t a b :
  returns m t a -> returns m t b -> a = b.
Proof. intros [t1 H1] [t2 H2]. congruence. Qed.

Lemma squarings_total n :
  n <> 0 -> forall (j : nat) x, exists b, squarings j x n = Ok b.
Proof.
  intros Hn. induction j as [|j IH]; intros x; cbn [squarings]; [eauto|].
  rewrite py_pow_nonneg by lia. cbn [rbind].
  destruct (x ^ 2 mod n =? n - 1); [eauto|apply IH].
Qed.

Lemma squarings_true_inv n :
  2 <= n ->
  forall (j : nat) x,
    squarings j x n = Ok true ->
    exists i : nat, (1 <= i <= j)%nat /\ x ^ (2 ^ Z.of_nat i) mod n = n - 1.
Proof.
  intros Hn. induction j as [|j IH]; intros x H; cbn [squarings] in H;
    [discriminate|].
  rewrite py_pow_nonneg in H by lia. cbn [rbind] in H.
  destruct (Z.eqb_spec (x ^ 2 mod n) (n - 1)) as [E|_].
  - exists 1%nat. split; [lia|exact E].
  - destruct (IH _ H) as (i & Hi & Hx). exists (S i). split; [lia|].
    rewrite Z.mod_pow_l, <- Z.pow_mul_r in Hx by lia.
    rewrite <- Hx. do 2 f_equal.
    rewrite Nat2Z.inj_succ, Z.pow_succ_r by lia. reflexivity.
Qed.

(** One round on an odd [n]: it passes exactly when [n] is a strong
    probable prime to the base drawn, and a failing round ends the test. *)
Lemma round_verdict n r d k t :
  5 <= n -> Z.odd n = true -> decompose (n - 1) = (r, d) ->
  let a := 2 + t O mod (n - 2 - 2) in
  (strong_probable_prime n a /\
   rounds (S k) n r d t = rounds k n r d (advance t)) \/
  (~ strong_probable_prime n a /\
   rounds (S k) n r d t = Some (Ok (false, advance t))).
Proof.
  intros Hn Hodd Hdec a.
  destruct (decompose_spec (n - 1) r d) as (Hr & Hrd & Hdodd & Hd);
    [lia|exact Hdec|].
  assert (Hr1 : 1 <= r).
  { destruct (Z.eq_dec r 0) as [->|]; [|lia].
    rewrite Z.pow_0_r, Z.mul_1_l in Hrd. subst d.
    rewrite Z.odd_sub in Hdodd. rewrite Hodd in Hdodd. discriminate. }
  unfold strong_probable_prime. rewrite Hdec.
  rewrite rounds_unfold by lia. fold a. cbv zeta.
  destruct ((a ^ d mod n =? 1) || (a ^ d mod n =? n - 1)) eqn:Hx.
  - left. split; [|reflexivity].
    apply orb_true_iff in Hx. destruct Hx as [Hx|Hx]; apply Z.eqb_eq in Hx.
    + left. exact Hx.
    + right. exists 0. split; [lia|].
      rewrite Z.pow_0_r, Z.mul_1_l. exact Hx.
  - apply orb_false_iff in Hx. destruct Hx as [Hx1 Hx2].
    apply Z.eqb_neq in Hx1, Hx2.
    destruct (squarings_total n ltac:(lia) (Z.to_nat (r - 1)) (a ^ d mod n))
      as [[|] Hs]; rewrite Hs.
    + left. split; [|reflexivity]. right.
      destruct (squarings_true_inv n ltac:(lia) _ _ Hs) as (i & Hi & Hm).
      exists (Z.of_nat i). split; [lia|].
      rewrite Z.mod_pow_l, <- Z.pow_mul_r in Hm by lia.
      rewrite Z.mul_comm. exact Hm.
    + right. split; [|reflexivity].
      intros [H1|(j & Hj & Hm)]; [contradiction|].
      assert (Hhit : squarings (Z.to_nat (r - 1)) (a ^ d mod n) n = Ok true);
        [|congruence].
      apply squarings_hit; [lia|]. exists (Z.to_nat j).
      assert (j <> 0).
      { intros ->. rewrite Z.pow_0_r, Z.mul_1_l in Hm. contradiction. }
      split; [lia|].
      rewrite Z2Nat.id, Z.mod_pow_l, <- Z.pow_mul_r by lia.
      rewrite Z.mul_comm. exact Hm.
Qed.

(** The stages before the rounds: what [is_prime] is on a number that the
    table and trial division leave undecided. *)
Lemma is_prime_undecided n k :
  2 <= n -> (forall p, In p small_primes -> n mod p <> 0) ->
  5 <= n /\ Z.odd n = true /\
  is_prime n k
  = rounds (Z.to_nat k) n (fst (decompose (n - 1))) (snd (decompose (n - 1))).
Proof.
  intros Hn Hnd.
  assert (Hdiv : existsb (fun p => n mod p =? 0) small_primes = false).
  { destruct (existsb _ small_primes) eqn:E; [|reflexivity].
    apply existsb_exists in E. destruct E as (p & Hin & Hp).
    apply Z.eqb_eq in Hp. destruct (Hnd p Hin Hp). }
  assert (Htab : existsb (Z.eqb n) small_primes = false).
  { destruct (existsb (Z.eqb n) small_primes) eqn:E; [|reflexivity].
    apply existsb_exists in E. destruct E as (p & Hin & Hp).
    apply Z.eqb_eq in Hp. subst p. destruct (Hnd n Hin).
    apply Z.mod_same. lia. }
  assert (H2 : n mod 2 <> 0) by (apply Hnd; cbn; auto).
  assert (H3 : n mod 3 <> 0) by (apply Hnd; cbn; auto).
  assert (n <> 2) by (intros ->; apply H2; reflexivity).
  assert (n <> 3) by (intros ->; apply H3; reflexivity).
  assert (n <> 4) by (intros ->; apply H2; reflexivity).
  split; [lia|]. split.
  - rewrite Zmod_odd in H2. destruct (Z.odd n); [reflexivity|contradiction].
  - unfold is_prime. destruct (Z.ltb_spec n 2); [lia|].
    rewrite Htab, Hdiv. destruct (decompose (n - 1)). reflexivity.
Qed.

Lemma rounds_total n r d :
  5 <= n -> Z.odd n = true -> decompose (n - 1) = (r, d) ->
  forall (k : nat) t,
    exists b j, (j <= k)%nat /\
      rounds k n r d t = Some (Ok (b, Nat.iter j advance t)).
Proof.
  intros Hn Hodd Hdec. induction k as [|k IH]; intros t.
  - exists true, O. split; [lia|reflexivity].
  - destruct (round_verdict n r d k t Hn Hodd Hdec) as [[_ E]|[_ E]]; rewrite E.
    + destruct (IH (advance t)) as (b & j & Hj & Hrun).
      exists b, (S j). split; [lia|]. rewrite Hrun, Nat.iter_succ_r.
      reflexivity.
    + exists false, 1%nat. split; [lia|reflexivity].
Qed.

Lemma is_prime_runs n k t :
  exists b j, (j <= Z.to_nat k)%nat /\
    is_prime n k t = Some (Ok (b, Nat.iter j advance t)).
Proof.
  destruct (Z.lt_ge_cases n 2) as [Hlt|Hge].
  - exists false, O. split; [lia|]. unfold is_prime.
    destruct (Z.ltb_spec n 2); [reflexivity|lia].
  - destruct (existsb (Z.eqb n) small_primes) eqn:Htab.
    { exists true, O. split; [lia|]. unfold is_prime.
      destruct (Z.ltb_spec n 2); [lia|]. rewrite Htab. reflexivity. }
    destruct (existsb (fun p => n mod p =? 0) small_primes) eqn:Hdiv.
    { exists false, O. split; [lia|]. unfold is_prime.
      destruct (Z.ltb_spec n 2); [lia|]. rewrite Htab, Hdiv. reflexivity. }
    destruct (is_prime_undecided n k Hge) as (H5 & Hodd & ->).
    { intros p Hin Hp.
      assert (existsb (fun p => n mod p =? 0) small_primes = true);
        [|congruence].
      apply existsb_exists. exists p. split; [exact Hin|].
      apply Z.eqb_eq. exact Hp. }
    apply rounds_total; trivial. apply surjective_pairing.
Qed.

(** X1. [is_prime] has no error path and never loops: on every integer,
    every number of rounds and every tape it returns a boolean, having
    drawn at most [k] random values. *)
Theorem is_prime_total n k t :
  exists b j, (j <= Z.to_nat k)%nat /\
    is_prime n k t = Some (Ok (b, Nat.iter j advance t)).
Proof.
  destruct (is_prime_runs n k t) as (b & j & Hj & E).
  exists b, j. split; [exact Hj|exact E].
Qed.

Lemma rounds_accept_iff n r d :
  5 <= n -> Z.odd n = true -> decompose (n - 1) = (r, d) ->
  forall (k : nat) t b,
    returns (rounds k n r d) t b ->
    (b = true <->
     forall i : nat, (i < k)%nat ->
                     strong_probable_prime n (2 + t i mod (n - 2 - 2))).
Proof.
  intros Hn Hodd Hdec. induction k as [|k IH]; intros t b H.
  - apply ret_returns in H. subst b. split; [intros _ i Hi; lia|reflexivity].
  - unfold returns in H.
    destruct (round_verdict n r d k t Hn Hodd Hdec) as [[Hs E]|[Hs E]];
      rewrite E in H.
    + rewrite (IH (advance t) b H). split.
      * intros Hall [|i] Hi; [exact Hs|]. apply (Hall i). lia.
      * intros Hall i Hi. apply (Hall (S i)). lia.
    + destruct H as [t' H]. injection H as <- _. split; [discriminate|].
      intros Hall. destruct Hs. apply (Hall O). lia.
Qed.

(** X3. On a number n >= 2 that no prime of the table divides, [is_prime]
    returns True exactly when n is a strong probable prime to each of the
    k bases drawn, the i-th base being 2 + (i-th random value mod (n - 4)). *)
Theorem is_prime_accepts_iff n k t b :
  2 <= n -> (forall p, In p small_primes -> n mod p <> 0) ->
  returns (is_prime n k) t b ->
  (b = true <->
   forall i : nat, (i < Z.to_nat k)%nat ->
                   strong_probable_prime n (2 + t i mod (n - 2 - 2))).
Proof.
  intros Hn Hnd H.
  destruct (is_prime_undecided n k Hn Hnd) as (H5 & Hodd & E).
  rewrite E in H. revert H. apply rounds_accept_iff; trivial.
  apply surjective_pairing.
Qed.

Lemma is_prime_accepts_iff_witness :
  true = true <->
  forall i : nat, (i < Z.to_nat 10)%nat ->
                  strong_probable_prime 841 (2 + tape_of [] 12 i mod (841 - 2 - 2)).
Proof.
  apply (is_prime_accepts_iff 841 10 (tape_of [] 12) true).
  - lia.
  - intros p Hin. cbn in Hin.
    repeat (destruct Hin as [<-|Hin]; [vm_compute; discriminate|]).
    contradiction.
  - apply outcome_returns. vm_compute. reflexivity.
Defined.

Lemma is_prime_true_passes_trial n k t :
  returns (is_prime n k) t true -> passes_trial_division n = true.
Proof.
  unfold is_prime, passes_trial_division.
  destruct (n <? 2); [intros H; apply ret_returns in H; discriminate|].
  destruct (existsb (Z.eqb n) small_primes); [reflexivity|].
  destruct (existsb (fun p => n mod p =? 0) small_primes); [|reflexivity].
  intros H. apply ret_returns in H. discriminate.
Qed.

(** Below 29 * 29 the table and trial division leave only primes. *)
Lemma trial_division_exact n :
  n < 841 -> passes_trial_division n = true -> Z.prime n.
Proof.
  intros Hn H. apply prime_by_trial_sound.
  assert (Hge : 2 <= n).
  { unfold passes_trial_division in H. apply andb_true_iff in H.
    destruct H as [H _]. apply negb_true_iff, Z.ltb_ge in H. exact H. }
  assert (Hall : forallb (fun i => if passes_trial_division (Z.of_nat i)
                                   then prime_by_trial (Z.of_nat i) else true)
                         (seq 0 841) = true)
    by (vm_compute; reflexivity).
  rewrite forallb_forall in Hall. specialize (Hall (Z.to_nat n)).
  rewrite Z2Nat.id, H in Hall by lia. apply Hall, in_seq. lia.
Qed.

(** X2. Below 841 = 29 * 29 the test is exact: whatever the number of
    rounds and the bases drawn, [is_prime] returns True exactly for the
    primes. *)
Theorem is_prime_exact_below_841 n k t b :
  n < 841 -> returns (is_prime n k) t b -> (b = true <-> Z.prime n).
Proof.
  intros Hn H. split.
  - intros ->. apply trial_division_exact; [exact Hn|].
    apply (is_prime_true_passes_trial n k t H).
  - intros Hp. apply (returns_functional _ _ _ _ H).
    apply is_prime_complete. exact Hp.
Qed.

Lemma is_prime_exact_below_841_witness : false = true <-> Z.prime 341.
Proof.
  apply (is_prime_exact_below_841 341 10 (tape_of [] 0) false).
  - lia.
  - apply outcome_returns. vm_compute. reflexivity.
Defined.

(** ** The run that returns a candidate *)

(** One iteration of [generate_large_prime] on a valid size. *)
Lemma generate_large_prime_unfold fuel bits t :
  1 <= bits ->
  generate_large_prime (S fuel) bits t
  = let c := Z.lor (Z.lor (t O mod 2 ^ bits) 1) (2 ^ (bits - 1)) in
    match is_prime c 10 (advance t) with
    | Some (Ok (true, t')) => Some (Ok (c, t'))
    | Some (Ok (false, t')) => generate_large_prime fuel bits t'
    | Some (Raise e) => Some (Raise e)
    | None => None
    end.
Proof.
  intros Hb. cbn [generate_large_prime]. unfold bind at 1, getrandbits.
  destruct (Z.ltb_spec bits 0); [lia|].
  unfold bind at 1, py_lshift, lift.
  destruct (Z.ltb_spec (bits - 1) 0); [lia|].
  rewrite Z.shiftl_1_l. unfold bind, ret. cbv zeta.
  destruct (is_prime _ 10 (advance t)) as [[[[|] t']|e]|]; reflexivity.
Qed.

Lemma generate_large_prime_nonpositive fuel bits t :
  bits <= 0 -> generate_large_prime (S fuel) bits t = Some (Raise ValueError).
Proof.
  intros Hb. cbn [generate_large_prime]. unfold bind at 1, getrandbits.
  destruct (Z.ltb_spec bits 0); [reflexivity|].
  unfold bind at 1, py_lshift, lift.
  destruct (Z.ltb_spec (bits - 1) 0); [reflexivity|lia].
Qed.

Lemma iter_advance j : forall (t : tape) i, Nat.iter j advance t i = t (i + j)%nat.
Proof.
  induction j as [|j IH]; intros t i.
  - rewrite Nat.add_0_r. reflexivity.
  - change (Nat.iter (S j) advance t i) with (Nat.iter j advance t (S i)).
    rewrite IH. f_equal. lia.
Qed.

(** The candidate returned was formed from some random value of the tape
    and accepted on the values that follow it. *)
Lemma generate_large_prime_run bits fuel :
  forall t c t',
    generate_large_prime fuel bits t = Some (Ok (c, t')) ->
    exists j,
      c = Z.lor (Z.lor (t j mod 2 ^ bits) 1) (2 ^ (bits - 1)) /\
      is_prime c 10 (Nat.iter (S j) advance t) = Some (Ok (true, t')).
Proof.
  induction fuel as [|fuel IH]; intros t c t' H; [discriminate|].
  destruct (Z.le_gt_cases bits 0) as [Hb|Hb];
    [rewrite generate_large_prime_nonpositive in H by exact Hb; discriminate|].
  rewrite generate_large_prime_unfold in H by lia. cbv zeta in H.
  destruct (is_prime_runs (Z.lor (Z.lor (t O mod 2 ^ bits) 1) (2 ^ (bits - 1)))
                          10 (advance t)) as (b & j0 & _ & E).
  rewrite E in H. destruct b.
  - injection H as <- <-. exists O. split; [reflexivity|exact E].
  - destruct (IH _ _ _ H) as (j1 & Hc & Hacc).
    exists (j1 + S j0)%nat. split.
    + rewrite Hc. rewrite <- Nat.iter_succ_r, iter_advance. reflexivity.
    + rewrite <- Nat.iter_succ_r in Hacc.
      change (S (j1 + S j0)) with (S j1 + S j0)%nat.
      rewrite Nat.iter_add. exact Hacc.
Qed.

(** C3 (as the code has it). An integer returned by
    [generate_large_prime(bits)] has bit length exactly [bits], is odd, and
    was accepted by [is_prime] on the ten bases drawn for it: it was formed
    from some random value of the run and [is_prime], with ten rounds,
    returned [True] on the values that follow that one. When it is in fact
    prime, every later test accepts it, for any number of rounds. *)
Theorem generate_large_prime_sound fuel bits t c :
  returns (generate_large_prime fuel bits) t c ->
  bit_length c = bits /\
  Z.odd c = true /\
  (exists j,
      c = Z.lor (Z.lor (t j mod 2 ^ bits) 1) (2 ^ (bits - 1)) /\
      returns (is_prime c 10) (Nat.iter (S j) advance t) true) /\
  (Z.prime c -> forall k t1, returns (is_prime c k) t1 true).
Proof.
  intros H. destruct (generate_large_prime_sampled _ _ _ _ H) as (Hl & Ho & _).
  split; [exact Hl|]. split; [exact Ho|]. split.
  - destruct H as [t' H].
    destruct (generate_large_prime_run _ _ _ _ _ H) as (j & Hc & Hacc).
    exists j. split; [exact Hc|]. exists t'. exact Hacc.
  - intros Hp k t1. apply is_prime_complete. exact Hp.
Qed.

Lemma generate_large_prime_sound_witness :
  bit_length 523 = 10 /\
  Z.odd 523 = true /\
  (exists j,
      523 = Z.lor (Z.lor (tape_of [11] 5 j mod 2 ^ 10) 1) (2 ^ (10 - 1)) /\
      returns (is_prime 523 10) (Nat.iter (S j) advance (tape_of [11] 5)) true) /\
  (Z.prime 523 -> forall k t1, returns (is_prime 523 k) t1 true).
Proof.
  apply (generate_large_prime_sound 1 10 (tape_of [11] 5)).
  apply outcome_returns. vm_compute. reflexivity.
Defined.

(** C3 fails as stated: 841 = 29 * 29 passes the ten rounds when the base
    14 is drawn each time, so [generate_large_prime(10)] returns it; tested
    again with 20 rounds on the base 2, it is rejected. *)
Lemma generate_large_prime_counterexample :
  returns (generate_large_prime 1 10) (tape_of [329] 12) 841 /\
  returns (is_prime 841 20) (tape_of [] 0) false /\
  ~ Z.prime 841.
Proof.
  split; [|split].
  - apply outcome_returns. vm_compute. reflexivity.
  - apply outcome_returns. vm_compute. reflexivity.
  - apply (Z.not_prime_square 29).
Qed.

(** ** Small and invalid sizes *)

Lemma generate_large_prime_one fuel : forall t, generate_large_prime fuel 1 t = None.
Proof.
  induction fuel as [|fuel IH]; intros t; [reflexivity|].
  rewrite generate_large_prime_unfold by lia. cbv zeta.
  assert (E : Z.lor (Z.lor (t O mod 2 ^ 1) 1) (2 ^ (1 - 1)) = 1).
  { pose proof (Z.mod_pos_bound (t O) (2 ^ 1) ltac:(lia)) as Hm.
    change (2 ^ 1) with 2 in *.
    assert (Hc : t O mod 2 = 0 \/ t O mod 2 = 1) by lia.
    destruct Hc as [-> | ->]; reflexivity. }
  rewrite E. change (is_prime 1 10 (advance t)) with (Some (Ok (false, advance t))).
  apply IH.
Qed.

Lemma generate_large_prime_two fuel t :
  generate_large_prime (S fuel) 2 t = Some (Ok (3, advance t)).
Proof.
  rewrite generate_large_prime_unfold by lia. cbv zeta.
  assert (E : Z.lor (Z.lor (t O mod 2 ^ 2) 1) (2 ^ (2 - 1)) = 3).
  { pose proof (Z.mod_pos_bound (t O) (2 ^ 2) ltac:(lia)) as Hm.
    change (2 ^ 2) with 4 in *.
    assert (Hc : t O mod 4 = 0 \/ t O mod 4 = 1 \/ t O mod 4 = 2 \/ t O mod 4 = 3)
      by lia.
    destruct Hc as [-> | [-> | [-> | ->]]]; reflexivity. }
  rewrite E. reflexivity.
Qed.

(** X4. [generate_large_prime] on small sizes: a size of 0 or less raises
    ValueError; the size 1 never returns, its only candidate being 1; the
    size 2 returns 3 at the first draw. *)
Theorem generate_large_prime_small_sizes fuel t :
  (forall bits, bits <= 0 ->
     generate_large_prime (S fuel) bits t = Some (Raise ValueError)) /\
  generate_large_prime fuel 1 t = None /\
  generate_large_prime (S fuel) 2 t = Some (Ok (3, advance t)).
Proof.
  split; [|split].
  - intros bits Hb. apply generate_large_prime_nonpositive. exact Hb.
  - apply generate_large_prime_one.
  - apply generate_large_prime_two.
Qed.

Lemma keypair_loop_size_two inner fuel :
  forall bits t, bits / 2 = 2 ->
                 generate_rsa_keypair_loop fuel inner bits t = None.
Proof.
  induction fuel as [|fuel IH]; intros bits t Hb; [reflexivity|].
  cbn [generate_rsa_keypair_loop]. rewrite Hb.
  destruct inner as [|inner]; [reflexivity|].
  unfold bind at 1. rewrite generate_large_prime_two.
  unfold bind at 1. rewrite generate_large_prime_two.
  cbn [Z.eqb Pos.eqb]. apply IH. exact Hb.
Qed.

(** X5. [generate_rsa_keypair] on small sizes: for bits <= 1 it raises
    ValueError; for 2 <= bits <= 5 it never returns, whatever is drawn
    (the prime generator never returns on one bit, and on two bits both
    primes are 3, so the loop continues for ever). *)
Theorem generate_rsa_keypair_small_sizes fuel bits t :
  (bits <= 1 ->
   generate_rsa_keypair (S fuel) bits t = Some (Raise ValueError)) /\
  (2 <= bits <= 5 -> generate_rsa_keypair fuel bits t = None).
Proof.
  split.
  - intros Hb. unfold generate_rsa_keypair. cbn [generate_rsa_keypair_loop].
    unfold bind at 1.
    rewrite generate_large_prime_nonpositive; [reflexivity|].
    assert (bits / 2 < 1) by (apply Z.div_lt_upper_bound; lia). lia.
  - intros Hb. unfold generate_rsa_keypair.
    assert (Hc : bits / 2 = 1 \/ bits / 2 = 2).
    { assert (1 <= bits / 2) by (apply Z.div_le_lower_bound; lia).
      assert (bits / 2 < 3) by (apply Z.div_lt_upper_bound; lia). lia. }
    destruct Hc as [H1|H2].
    + destruct fuel as [|fuel]; [reflexivity|].
      cbn [generate_rsa_keypair_loop]. unfold bind at 1.
      rewrite H1, generate_large_prime_one. reflexivity.
    + apply keypair_loop_size_two. exact H2.
Qed.

(** ** The size of a key *)

Lemma sampled_range bits x :
  sampled bits x -> 2 <= bits /\ 2 ^ (bits - 1) <= x < 2 ^ bits.
Proof.
  intros S. pose proof (sampled_ge_3 _ _ S) as H3.
  destruct S as (Hlen & _). unfold bit_length in Hlen.
  destruct (Z.eqb_spec x 0); [lia|]. rewrite Z.abs_eq in Hlen by lia.
  pose proof (Z.log2_spec x ltac:(lia)) as Hs.
  assert (1 <= Z.log2 x) by (apply (Z.log2_le_pow2 x 1); lia).
  assert (E : bits = Z.succ (Z.log2 x)) by lia.
  split; [lia|]. rewrite E at 2. replace (bits - 1) with (Z.log2 x) by lia.
  exact Hs.
Qed.

(** X6. The modulus of a returned key has 2 * (bits // 2) bits or one bit
    less and is odd, and the private exponent lies strictly between 0 and
    the modulus. *)
Theorem generate_rsa_keypair_size fuel bits t pub priv :
  returns (generate_rsa_keypair fuel bits) t (pub, priv) ->
  2 ^ (2 * (bits / 2) - 2) <= snd pub < 2 ^ (2 * (bits / 2)) /\
  (bit_length (snd pub) = 2 * (bits / 2) \/
   bit_length (snd pub) = 2 * (bits / 2) - 1) /\
  Z.odd (snd pub) = true /\
  0 < fst priv < snd pub.
Proof.
  intros H. apply keypair_loop_sound in H.
  destruct H as (p & q & d & -> & -> & Hne & Sp & Sq & Hgcd & Hed & Hd).
  cbn [fst snd].
  destruct (sampled_range _ _ Sp) as [Hb Hp].
  destruct (sampled_range _ _ Sq) as [_ Hq].
  set (b := bits / 2) in *.
  assert (HA : 0 < 2 ^ (b - 1)) by (apply Z.pow_pos_nonneg; lia).
  assert (Hlo : 2 ^ (2 * b - 2) <= p * q).
  { replace (2 * b - 2) with ((b - 1) + (b - 1)) by lia.
    rewrite Z.pow_add_r by lia. nia. }
  assert (Hhi : p * q < 2 ^ (2 * b)).
  { replace (2 * b) with (b + b) by lia.
    rewrite Z.pow_add_r by lia. nia. }
  assert (Hpos : 0 < p * q) by nia.
  split; [lia|]. split; [|split].
  - unfold bit_length. destruct (Z.eqb_spec (p * q) 0); [lia|].
    rewrite Z.abs_eq by lia.
    assert (2 * b - 2 <= Z.log2 (p * q)) by (apply Z.log2_le_pow2; lia).
    assert (Z.log2 (p * q) < 2 * b) by (apply Z.log2_lt_pow2; lia).
    lia.
  - rewrite Z.odd_mul. destruct Sp as (_ & -> & _). destruct Sq as (_ & -> & _).
    reflexivity.
  - assert (d <> 0).
    { intros ->. rewrite Z.mul_0_r, Z.mod_0_l in Hed by nia. discriminate. }
    nia.
Qed.

Lemma generate_rsa_keypair_size_witness :
  2 ^ (2 * (8 / 2) - 2) <= 143 < 2 ^ (2 * (8 / 2)) /\
  (bit_length 143 = 2 * (8 / 2) \/ bit_length 143 = 2 * (8 / 2) - 1) /\
  Z.odd 143 = true /\
  0 < 113 < 143.
Proof.
  apply (generate_rsa_keypair_size 1 8 (tape_of [3; 5] 0)
           (65537, 143) (113, 143)).
  apply outcome_returns. vm_compute. reflexivity.
Defined.

(** ** Signatures and residues *)

Lemma Ok_inj {A : Type} (a b : A) : Ok a = Ok b -> a = b.
Proof. intros H. injection H as ->. reflexivity. Qed.

(** The built-in [pow] sees its base modulo the modulus only. *)
Lemma py_pow_shift b k e m : py_pow (b + k * m) e m = py_pow b e m.
Proof.
  unfold py_pow. destruct (m =? 0); [reflexivity|].
  destruct (Z.abs m =? 1); [reflexivity|].
  destruct (Z.ltb_spec e 0) as [He|He].
  - rewrite (Z.gcd_comm (b + k * m)), Z.gcd_add_mult_diag_r, (Z.gcd_comm m).
    destruct (Z.gcd b m =? 1); [|reflexivity].
    do 2 f_equal.
    rewrite <- (Z.invmod_mod_l (b + k * m)), <- (Z.invmod_mod_l b). f_equal.
    replace (k * m) with (k * Z.sgn m * Z.abs m).
    + apply Z_mod_plus_full.
    + rewrite <- Z.mul_assoc, (Z.mul_comm (Z.sgn m)), Z.abs_sgn. reflexivity.
  - rewrite !pow_mod_spec by lia.
    rewrite <- (Z.mod_pow_l (b + k * m)), Z_mod_plus_full, Z.mod_pow_l.
    reflexivity.
Qed.

(** X8. Verification never looks at the range of the signature: shifting
    a signature by any multiple of the modulus changes neither the verdict
    nor the error. *)
Theorem rsa_verify_shift message signature k e n :
  rsa_verify message (signature + k * n) (e, n)
  = rsa_verify message signature (e, n).
Proof. unfold rsa_verify. rewrite py_pow_shift. reflexivity. Qed.

(** On a key whose modulus is a product of two primes, raising to the
    power e * d is the identity on residues. *)
Lemma valid_key_inverse fuel bits t pub priv :
  returns (generate_rsa_keypair fuel bits) t (pub, priv) ->
  semiprime (snd pub) ->
  exists d n,
    pub = (65537, n) /\ priv = (d, n) /\ 2 <= n /\ 0 <= d /\
    forall x, x ^ (65537 * d) mod n = x mod n.
Proof.
  intros H (p' & q' & Hp' & Hq' & Hn).
  apply keypair_loop_sound in H.
  destruct H as (p & q & d & -> & -> & Hne & Sp & Sq & Hgcd & Hed & Hd).
  cbn [snd] in Hn.
  pose proof (sampled_ge_3 _ _ Sp) as Hp3.
  pose proof (sampled_ge_3 _ _ Sq) as Hq3.
  destruct (semiprime_factors p q p' q') as [Hp Hq]; try assumption; try lia.
  exists d, (p * q). split; [reflexivity|]. split; [reflexivity|].
  split; [nia|]. split; [lia|]. intros x.
  pose proof (Z.div_mod (65537 * d) ((p - 1) * (q - 1)) ltac:(nia)) as Hdm.
  rewrite Hed in Hdm.
  replace (65537 * d)
    with (1 + (65537 * d / ((p - 1) * (q - 1))) * ((p - 1) * (q - 1)))
    by lia.
  apply rsa_cycle; trivial. apply Z.div_pos; nia.
Qed.

(** X7. On a key whose modulus n is a product of two primes, the signature
    of a message m verifies for a message m' exactly when the digest of m'
    equals the digest of m reduced modulo n. *)
Theorem rsa_signature_binds_digest fuel bits t pub priv message h :
  returns (generate_rsa_keypair fuel bits) t (pub, priv) ->
  semiprime (snd pub) ->
  sha256_int message = Ok h ->
  exists s,
    rsa_sign message priv = Ok s /\
    forall message' h',
      sha256_int message' = Ok h' ->
      rsa_verify message' s pub = Ok (h' =? h mod snd pub).
Proof.
  intros H Hsp Hh.
  destruct (valid_key_inverse _ _ _ _ _ H Hsp) as (d & n & -> & -> & Hn & Hd & Hcyc).
  cbn [snd]. exists (h ^ d mod n). split.
  - apply rsa_sign_nonneg; trivial; lia.
  - intros message' h' Hh'.
    rewrite (rsa_verify_nonneg message' h') by (trivial; lia).
    rewrite Z.mod_pow_l, <- Z.pow_mul_r, (Z.mul_comm d), Hcyc by lia.
    reflexivity.
Qed.

Lemma semiprime_143 : semiprime 143.
Proof.
  exists 11, 13.
  split; [apply prime_by_trial_sound; vm_compute; reflexivity|].
  split; [apply prime_by_trial_sound; vm_compute; reflexivity|].
  reflexivity.
Qed.

Lemma rsa_signature_binds_digest_witness :
  exists s,
    rsa_sign "abc" (113, 143) = Ok s /\
    forall message' h',
      sha256_int message' = Ok h' ->
      rsa_verify message' s (65537, 143)
      = Ok (h' =? int_from_bytes_big (Sha256.digest (bytes_of_string "abc"))
                  mod 143).
Proof.
  apply (rsa_signature_binds_digest 1 8 (tape_of [3; 5] 0)
           (65537, 143) (113, 143) "abc").
  - apply outcome_returns. vm_compute. reflexivity.
  - exact semiprime_143.
  - exact sha256_int_abc.
Defined.

(** X9. On a key whose modulus n is a product of two primes, the public
    and the private operation are inverse of each other on residues:
    pow(pow(x, e, n), d, n) = pow(pow(x, d, n), e, n) = x mod n for every
    integer x. Hence a signature that verifies for a message is, modulo n,
    the signature [rsa_sign] gives. *)
Theorem rsa_keypair_operations_inverse fuel bits t pub priv :
  returns (generate_rsa_keypair fuel bits) t (pub, priv) ->
  semiprime (snd pub) ->
  (forall x, exists y z,
     py_pow x (fst pub) (snd pub) = Ok y /\
     py_pow y (fst priv) (snd priv) = Ok (x mod snd pub) /\
     py_pow x (fst priv) (snd priv) = Ok z /\
     py_pow z (fst pub) (snd pub) = Ok (x mod snd pub)) /\
  (forall message signature,
     rsa_verify message signature pub = Ok true ->
     rsa_sign message priv = Ok (signature mod snd pub)).
Proof.
  intros H Hsp.
  destruct (valid_key_inverse _ _ _ _ _ H Hsp) as (d & n & -> & -> & Hn & Hd & Hcyc).
  cbn [fst snd]. split.
  - intros x. exists (x ^ 65537 mod n), (x ^ d mod n).
    rewrite !py_pow_nonneg by lia.
    rewrite !Z.mod_pow_l, <- !Z.pow_mul_r, (Z.mul_comm d), !Hcyc by lia.
    repeat split; reflexivity.
  - intros message signature Hv.
    destruct (sha256_int message) as [h|err] eqn:Hh;
      [|unfold rsa_verify in Hv; rewrite Hh in Hv; discriminate].
    rewrite (rsa_verify_nonneg message h) in Hv by (trivial; lia).
    apply Ok_inj in Hv. apply Z.eqb_eq in Hv.
    rewrite (rsa_sign_nonneg message h) by (trivial; lia). rewrite Hv.
    rewrite Z.mod_pow_l, <- Z.pow_mul_r, Hcyc by lia. reflexivity.
Qed.

Lemma rsa_keypair_operations_inverse_witness :
  (forall x, exists y z,
     py_pow x 65537 143 = Ok y /\
     py_pow y 113 143 = Ok (x mod 143) /\
     py_pow x 113 143 = Ok z /\
     py_pow z 65537 143 = Ok (x mod 143)) /\
  (forall message signature,
     rsa_verify message signature (65537, 143) = Ok true ->
     rsa_sign message (113, 143) = Ok (signature mod 143)).
Proof.
  apply (rsa_keypair_operations_inverse 1 8 (tape_of [3; 5] 0)
           (65537, 143) (113, 143)).
  - apply outcome_returns. vm_compute. reflexivity.
  - exact semiprime_143.
Defined.

(** ** The digest and its two readings *)

Lemma digest_shape msg :
  Forall (fun b => 0 <= b < 256) (Sha256.digest msg) /\
  List.length (Sha256.digest msg) = 32%nat.
Proof.
  unfold Sha256.digest. cbn [flat_map]. split.
  - repeat (apply Forall_app; split; [apply be_bytes_range|]). constructor.
  - rewrite !length_app, !be_bytes_length. reflexivity.
Qed.

Lemma nibbles_range bs :
  Forall (fun b => 0 <= b < 256) bs -> Forall (fun x => 0 <= x < 16) (nibbles bs).
Proof.
  induction 1 as [|b bs Hb _ IH]; cbn; [constructor|].
  constructor; [|constructor; [|exact IH]].
  - split; [apply Z.div_pos; lia|apply Z.div_lt_upper_bound; lia].
  - apply Z.mod_pos_bound. lia.
Qed.

Lemma nibbles_length bs : List.length (nibbles bs) = (2 * List.length bs)%nat.
Proof.
  unfold nibbles. induction bs as [|b bs IH]; [reflexivity|].
  cbn [flat_map app List.length]. rewrite IH. lia.
Qed.

Lemma hex_of_bytes_nibbles bs :
  hex_of_bytes bs = string_of_list_ascii (map hex_digit (nibbles bs)).
Proof.
  induction bs as [|b bs IH]; [reflexivity|].
  cbn [hex_of_bytes nibbles flat_map app map string_of_list_ascii].
  rewrite IH. reflexivity.
Qed.

Lemma int_from_bytes_big_nibbles bs :
  int_from_bytes_big bs = fold_left (fun acc x => acc * 16 + x) (nibbles bs) 0.
Proof.
  unfold int_from_bytes_big. generalize 0.
  induction bs as [|b bs IH]; intros acc; [reflexivity|].
  cbn [fold_left nibbles flat_map app]. rewrite IH. f_equal.
  pose proof (Z.div_mod b 16 ltac:(lia)). lia.
Qed.

Lemma hex_digit_spec x :
  0 <= x < 16 ->
  hex_char (hex_digit x) = true /\ (hex_digit x = "0"%char -> x = 0).
Proof.
  intros Hx.
  assert (Hall : forallb (fun i => hex_char (hex_digit (Z.of_nat i)) &&
                                   (negb (Ascii.eqb (hex_digit (Z.of_nat i)) "0")
                                    || Nat.eqb i 0))
                         (seq 0 16) = true) by (vm_compute; reflexivity).
  rewrite forallb_forall in Hall. specialize (Hall (Z.to_nat x)).
  rewrite Z2Nat.id in Hall by lia.
  destruct (andb_prop _ _ (Hall ltac:(apply in_seq; lia))) as [H1 H2].
  split; [exact H1|]. intros E. rewrite E in H2. cbn in H2.
  apply Nat.eqb_eq in H2. lia.
Qed.

Lemma length_string_of_list_ascii l :
  String.length (string_of_list_ascii l) = List.length l.
Proof. induction l as [|c l IH]; cbn; [reflexivity|]. rewrite IH. reflexivity. Qed.

Lemma hexdigest_chars bs :
  String.length (hexdigest bs) = 64%nat /\
  Forall (fun c => hex_char c = true) (list_ascii_of_string (hexdigest bs)).
Proof.
  unfold hexdigest. rewrite hex_of_bytes_nibbles.
  destruct (digest_shape bs) as [Hr Hl].
  split.
  - rewrite length_string_of_list_ascii, length_map, nibbles_length, Hl.
    reflexivity.
  - rewrite list_ascii_of_string_of_list_ascii. apply Forall_map.
    eapply Forall_impl; [|apply nibbles_range; exact Hr].
    intros x Hx. apply hex_digit_spec. exact Hx.
Qed.

Lemma sha256_hexdigest_inv s h :
  sha256_hexdigest s = Ok h ->
  exists bytes, encode_utf8 s = Ok bytes /\ h = hexdigest bytes.
Proof.
  unfold sha256_hexdigest. destruct (encode_utf8 s) as [bytes|e];
    [|discriminate].
  cbn [rbind]. intros H. injection H as <-. eauto.
Qed.

(** X10. The hexadecimal digest has exactly 64 characters, all of them
    among 0-9 and a-f (lower case), and it is the digest integer written
    in base 16: its digits are the nibbles whose value [sha256_int] is. *)
Theorem sha256_hexdigest_shape s h :
  sha256_hexdigest s = Ok h ->
  String.length h = 64%nat /\
  Forall (fun c => hex_char c = true) (list_ascii_of_string h) /\
  exists digits,
    h = string_of_list_ascii (map hex_digit digits) /\
    Forall (fun x => 0 <= x < 16) digits /\
    sha256_int s = Ok (fold_left (fun acc x => acc * 16 + x) digits 0).
Proof.
  intros H. apply sha256_hexdigest_inv in H. destruct H as (bytes & He & ->).
  destruct (hexdigest_chars bytes) as [Hl Hc].
  split; [exact Hl|]. split; [exact Hc|].
  exists (nibbles (Sha256.digest bytes)).
  split; [apply hex_of_bytes_nibbles|]. split.
  - apply nibbles_range, digest_shape.
  - rewrite (sha256_int_encode _ _ He), int_from_bytes_big_nibbles.
    reflexivity.
Qed.

Lemma sha256_hexdigest_shape_witness :
  String.length "ba7816bf8f01cfea414140de5dae2223b00361a396177a9cb410ff61f20015ad"
  = 64%nat /\
  Forall (fun c => hex_char c = true)
    (list_ascii_of_string
       "ba7816bf8f01cfea414140de5dae2223b00361a396177a9cb410ff61f20015ad") /\
  exists digits,
    "ba7816bf8f01cfea414140de5dae2223b00361a396177a9cb410ff61f20015ad"%string
    = string_of_list_ascii (map hex_digit digits) /\
    Forall (fun x => 0 <= x < 16) digits /\
    sha256_int "abc" = Ok (fold_left (fun acc x => acc * 16 + x) digits 0).
Proof.
  apply (sha256_hexdigest_shape "abc"). vm_compute. reflexivity.
Defined.

Lemma fold_nibbles_range l :
  Forall (fun x => 0 <= x < 16) l ->
  forall acc, 0 <= acc ->
    0 <= fold_left (fun acc x => acc * 16 + x) l acc
    < (acc + 1) * 16 ^ Z.of_nat (List.length l).
Proof.
  induction 1 as [|x l Hx _ IH]; intros acc Hacc.
  - cbn. lia.
  - cbn [fold_left List.length]. specialize (IH (acc * 16 + x) ltac:(lia)).
    rewrite Nat2Z.inj_succ, Z.pow_succ_r by lia.
    assert (0 < 16 ^ Z.of_nat (List.length l)) by (apply Z.pow_pos_nonneg; lia).
    nia.
Qed.

(** Leading zeros of the hexadecimal string are leading zero digits. *)
Lemma zeros_prefix_nibbles k :
  forall l,
    Forall (fun x => 0 <= x < 16) l ->
    String.prefix (zeros k) (string_of_list_ascii (map hex_digit l)) = true ->
    exists rest, l = repeat 0 k ++ rest.
Proof.
  induction k as [|k IH]; intros l Hl H; [exists l; reflexivity|].
  destruct l as [|x l]; [discriminate|].
  cbn [zeros map string_of_list_ascii String.prefix] in H.
  destruct (ascii_dec "0" (hex_digit x)) as [E|]; [|discriminate].
  inversion Hl as [|? ? Hx Hl']; subst.
  destruct (hex_digit_spec x Hx) as [_ H0]. rewrite (H0 (eq_sym E)).
  destruct (IH l Hl' H) as [rest ->]. exists rest. reflexivity.
Qed.

(** X11. Proof of work bounds the integer that is signed: when the
    hexadecimal digest of a message starts with k zeros, k is at most 64
    and the digest integer is below 16^(64-k); with k = 0, every digest
    integer lies in [0, 2^256). *)
Theorem zero_prefix_bounds_digest s h (k : nat) :
  sha256_hexdigest s = Ok h ->
  startswith h (zeros k) = true ->
  (k <= 64)%nat /\
  exists v, sha256_int s = Ok v /\ 0 <= v < 16 ^ (64 - Z.of_nat k).
Proof.
  intros Hh H. apply sha256_hexdigest_inv in Hh.
  destruct Hh as (bytes & He & ->).
  unfold startswith, hexdigest in H.
  rewrite hex_of_bytes_nibbles in H.
  rewrite (sha256_int_encode _ _ He), int_from_bytes_big_nibbles.
  destruct (digest_shape bytes) as [Hr Hl].
  pose proof (nibbles_range _ Hr) as Hn.
  pose proof (nibbles_length (Sha256.digest bytes)) as Hlen.
  rewrite Hl in Hlen.
  destruct (zeros_prefix_nibbles k _ Hn H) as [rest E].
  rewrite E in Hn, Hlen |- *. rewrite length_app, repeat_length in Hlen.
  apply Forall_app in Hn. destruct Hn as [_ Hrest].
  split; [lia|]. eexists. split; [reflexivity|].
  rewrite fold_left_app.
  assert (Hz : fold_left (fun acc x => acc * 16 + x) (repeat 0 k) 0 = 0)
    by (clear; induction k as [|k IH]; [reflexivity|exact IH]).
  rewrite Hz. pose proof (fold_nibbles_range rest Hrest 0 ltac:(lia)) as Hb.
  replace (64 - Z.of_nat k) with (Z.of_nat (List.length rest)) by lia.
  lia.
Qed.

Lemma zero_prefix_bounds_digest_witness :
  (1 <= 64)%nat /\
  exists v, sha256_int "Sam9" = Ok v /\ 0 <= v < 16 ^ (64 - Z.of_nat 1).
Proof.
  apply (zero_prefix_bounds_digest "Sam9"
           "0a5f9194343870d97bcf58de60dfb722300880d64411e08ba054a6227fc11a49" 1);
    vm_compute; reflexivity.
Defined.

(** ** Prefixes and the search *)

Lemma prefix_app p :
  forall h, String.prefix p h = true -> exists rest, h = (p ++ rest)%string.
Proof.
  induction p as [|c p IH]; intros h H; [exists h; reflexivity|].
  destruct h as [|c' h]; [discriminate|]. cbn [String.prefix] in H.
  destruct (ascii_dec c c') as [<-|]; [|discriminate].
  destruct (IH h H) as [rest ->]. exists rest. reflexivity.
Qed.

Lemma prefix_of_app p rest : String.prefix p (p ++ rest) = true.
Proof.
  induction p as [|c p IH]; cbn; [destruct rest; reflexivity|].
  destruct (ascii_dec c c); [exact IH|contradiction].
Qed.

Lemma string_append_assoc (s1 s2 s3 : string) :
  ((s1 ++ s2) ++ s3 = s1 ++ (s2 ++ s3))%string.
Proof. induction s1 as [|c s1 IH]; cbn; [reflexivity|]. rewrite IH. reflexivity. Qed.

Lemma prefix_trans p1 p2 h :
  String.prefix p1 p2 = true -> String.prefix p2 h = true ->
  String.prefix p1 h = true.
Proof.
  intros H1 H2. apply prefix_app in H1, H2.
  destruct H1 as [r1 ->]. destruct H2 as [r2 ->].
  rewrite string_append_assoc. apply prefix_of_app.
Qed.

Lemma list_ascii_of_string_app s1 s2 :
  list_ascii_of_string (s1 ++ s2) = list_ascii_of_string s1 ++ list_ascii_of_string s2.
Proof. induction s1 as [|c s1 IH]; cbn; [reflexivity|]. rewrite IH. reflexivity. Qed.

Lemma length_list_ascii_of_string s :
  List.length (list_ascii_of_string s) = String.length s.
Proof. induction s as [|c s IH]; cbn; [reflexivity|]. rewrite IH. reflexivity. Qed.

(** A prefix that matches some digest is a hexadecimal string of at most
    64 characters. *)
Lemma matches_prefix_shape nickname prefix n :
  matches nickname prefix n ->
  (String.length prefix <= 64)%nat /\
  Forall (fun c => hex_char c = true) (list_ascii_of_string prefix).
Proof.
  unfold matches, startswith. intros (h & Hh & H).
  apply sha256_hexdigest_inv in Hh. destruct Hh as (bytes & _ & ->).
  apply prefix_app in H. destruct H as [rest E].
  destruct (hexdigest_chars bytes) as [Hl Hc].
  rewrite E in Hl, Hc. rewrite list_ascii_of_string_app in Hc.
  apply Forall_app in Hc. destruct Hc as [Hc _]. split; [|exact Hc].
  rewrite <- length_list_ascii_of_string in Hl |- *.
  rewrite list_ascii_of_string_app, length_app in Hl. lia.
Qed.

(** The search raises only on a nickname that cannot be encoded. *)
Lemma pow_search_from_no_raise nickname bs prefix :
  encode_utf8 nickname = Ok bs ->
  forall fuel start e,
    pow_search_from fuel nickname prefix start <> Some (Raise e).
Proof.
  intros He. induction fuel as [|fuel IH]; intros start e;
    cbn [pow_search_from]; [discriminate|].
  rewrite sha256_hexdigest_nonce, He.
  destruct (startswith _ prefix); [discriminate|apply IH].
Qed.

(** X12. A prefix that is longer than 64 characters or holds a character
    outside 0-9 and a-f (an upper-case digit, for instance) is never found:
    [pow_search] returns no result on it, whatever the fuel; on a nickname
    that can be encoded it keeps looping, and so does [mine]. *)
Theorem search_impossible_prefix prefix :
  (64 < String.length prefix)%nat \/
  (exists c, In c (list_ascii_of_string prefix) /\ hex_char c = false) ->
  forall fuel nickname elapsed,
    (forall res, pow_search fuel nickname prefix <> Some (Ok res)) /\
    (forall bs, encode_utf8 nickname = Ok bs ->
                pow_search fuel nickname prefix = None) /\
    mine fuel prefix elapsed = None.
Proof.
  intros Hbad fuel nickname elapsed.
  assert (Hno : forall nick n, ~ matches nick prefix n).
  { intros nick n Hm. apply matches_prefix_shape in Hm.
    destruct Hm as [Hl Hc]. destruct Hbad as [Hlong|(c & Hin & Hc')]; [lia|].
    rewrite Forall_forall in Hc. rewrite (Hc c Hin) in Hc'. discriminate. }
  assert (Hres : forall nick res, pow_search fuel nick prefix <> Some (Ok res)).
  { intros nick res E.
    destruct (pow_search_from_sound _ _ _ _ _ E) as (n0 & h & _ & _ & _ & Hm & _).
    destruct (Hno _ _ Hm). }
  assert (Hloop : forall nick bs, encode_utf8 nick = Ok bs ->
                                  pow_search fuel nick prefix = None).
  { intros nick bs He.
    destruct (pow_search fuel nick prefix) as [[res|e]|] eqn:E; [| |reflexivity].
    - destruct (Hres _ _ E).
    - destruct (pow_search_from_no_raise _ _ prefix He _ _ _ E). }
  split; [apply Hres|]. split; [apply Hloop|].
  unfold mine. rewrite mine_from_pow_search_from.
  assert (E : encode_utf8 NICKNAME = Ok (bytes_of_string NICKNAME))
    by reflexivity.
  apply Hloop in E. unfold pow_search in E. rewrite E. reflexivity.
Qed.

Lemma search_impossible_prefix_witness :
  pow_search 1000 "Sam" "00A" = None /\
  mine 1000 "00A" (0, 1) = None.
Proof.
  destruct (search_impossible_prefix "00A") with (fuel := 1000%nat)
    (nickname := "Sam"%string) (elapsed := (0, 1)) as (_ & Hp & Hm).
  - right. exists "A"%char. split; [simpl; auto|reflexivity].
  - split; [|exact Hm]. apply (Hp (bytes_of_string "Sam")). reflexivity.
Defined.

Lemma pow_search_from_bound fuel nickname prefix :
  forall start res,
    pow_search_from fuel nickname prefix start = Some (Ok res) ->
    exists n0 h, start <= n0 < start + Z.of_nat fuel /\
                 sha256_hexdigest (nickname ++ str n0) = Ok h /\
                 res = [PyStr (nickname ++ str n0); PyStr h; PyInt n0].
Proof.
  induction fuel as [|fuel IH]; intros start res H;
    cbn [pow_search_from] in H; [discriminate|].
  destruct (sha256_hexdigest (nickname ++ str start)) as [h|e] eqn:Eh;
    [|discriminate].
  destruct (startswith h prefix).
  - injection H as <-. exists start, h. split; [lia|]. split; [exact Eh|reflexivity].
  - destruct (IH _ _ H) as (n0 & h0 & Hn & Eh0 & ->). exists n0, h0.
    split; [lia|]. split; [exact Eh0|reflexivity].
Qed.

Lemma pow_search_from_more_fuel nickname prefix fuel :
  forall start res (extra : nat),
    pow_search_from fuel nickname prefix start = Some res ->
    pow_search_from (fuel + extra) nickname prefix start = Some res.
Proof.
  induction fuel as [|fuel IH]; intros start res extra H;
    cbn [pow_search_from] in H; [discriminate|].
  cbn [Nat.add pow_search_from].
  destruct (sha256_hexdigest (nickname ++ str start)) as [h|e];
    [|exact H].
  destruct (startswith h prefix); [exact H|apply IH; exact H].
Qed.

(** X13. Difficulty is monotone. When [easy] is a prefix of [hard] and the
    search for [hard] returns the nonce n2 within some fuel, the search for
    [easy] returns within the same fuel, with a nonce n1 <= n2. This is the
    relation between the two runs of the second program, on "0000" and
    "00000". *)
Theorem search_difficulty_monotone fuel nickname easy hard res2 :
  String.prefix easy hard = true ->
  pow_search fuel nickname hard = Some (Ok res2) ->
  exists msg1 h1 n1 msg2 h2 n2,
    res2 = [PyStr msg2; PyStr h2; PyInt n2] /\
    pow_search fuel nickname easy = Some (Ok [PyStr msg1; PyStr h1; PyInt n1]) /\
    0 <= n1 <= n2.
Proof.
  intros Hpre H2. unfold pow_search in *.
  destruct (pow_search_from_sound _ _ _ _ _ H2)
    as (n2 & h2 & Hn2 & Eh2 & E2 & Hm2 & _).
  destruct (pow_search_from_bound _ _ _ _ _ H2) as (n2' & h2' & Hb & _ & E2').
  assert (n2' = n2) by congruence. subst n2'.
  assert (Hm1 : matches nickname easy n2).
  { destruct Hm2 as (h & Hh & Hs). exists h. split; [exact Hh|].
    unfold startswith in *. eapply prefix_trans; eassumption. }
  destruct (pow_search_from_complete nickname easy (Z.to_nat n2) 0) as [res1 H1].
  { rewrite Z2Nat.id by lia. exact Hm1. }
  destruct (pow_search_from_sound _ _ _ _ _ H1)
    as (n1 & h1 & Hn1 & _ & E1 & _ & Hmin).
  assert (n1 <= n2).
  { destruct (Z.le_gt_cases n1 n2) as [|Hgt]; [assumption|].
    destruct (Hmin n2); [lia|exact Hm1]. }
  do 6 eexists. split; [exact E2|]. split; [|split; [exact Hn1|eassumption]].
  replace fuel with (S (Z.to_nat n2) + (fuel - S (Z.to_nat n2)))%nat by lia.
  rewrite (pow_search_from_more_fuel _ _ _ _ _ _ H1). rewrite E1. reflexivity.
Qed.

Lemma search_difficulty_monotone_witness :
  exists msg1 h1 n1 msg2 h2 n2,
    [PyStr "Sam12";
     PyStr "038feb5d3d0bc079ac121e0500be563e229ef2ef65308c9a428a350cbca43f84";
     PyInt 12] = [PyStr msg2; PyStr h2; PyInt n2] /\
    pow_search 13 "Sam" "0" = Some (Ok [PyStr msg1; PyStr h1; PyInt n1]) /\
    0 <= n1 <= n2.
Proof.
  apply (search_difficulty_monotone 13 "Sam" "0" "03").
  - reflexivity.
  - vm_compute. reflexivity.
Defined.

(** X14. The two programs run the same search: on the nickname of the
    second program, [mine] returns (n, m, h, elapsed) exactly when
    [pow_search] returns (m, h, n), for the same fuel. *)
Theorem mine_agrees_with_pow_search fuel prefix elapsed n m h :
  mine fuel prefix elapsed
  = Some (Ok [PyInt n; PyStr m; PyStr h; PyFloat elapsed])
  <-> pow_search fuel NICKNAME prefix = Some (Ok [PyStr m; PyStr h; PyInt n]).
Proof.
  unfold mine, pow_search. rewrite mine_from_pow_search_from.
  destruct (pow_search_from fuel NICKNAME prefix 0) as [[res|e]|] eqn:E.
  - destruct (pow_search_from_sound _ _ _ _ _ E) as (n0 & h0 & _ & _ & -> & _).
    split; intros H; injection H as <- <- <-; reflexivity.
  - split; discriminate.
  - split; discriminate.
Qed.

(** ** Generated keys are usable *)

Lemma generate_large_prime_no_raise bits :
  1 <= bits ->
  forall fuel t e, generate_large_prime fuel bits t <> Some (Raise e).
Proof.
  intros Hb. induction fuel as [|fuel IH]; intros t e; [discriminate|].
  rewrite generate_large_prime_unfold by exact Hb. cbv zeta.
  destruct (is_prime_runs (Z.lor (Z.lor (t O mod 2 ^ bits) 1) (2 ^ (bits - 1)))
                          10 (advance t)) as (b & j & _ & ->).
  destruct b; [discriminate|apply IH].
Qed.

(** X15. For bits >= 2 key generation has no error path: a run of
    [generate_rsa_keypair] (and of [generate_large_prime] on one bit or
    more) returns or keeps looping, and never raises. *)
Theorem generate_rsa_keypair_no_raise bits :
  2 <= bits ->
  forall fuel t e,
    generate_rsa_keypair fuel bits t <> Some (Raise e) /\
    generate_large_prime fuel (bits / 2) t <> Some (Raise e).
Proof.
  intros Hb.
  assert (Hb2 : 1 <= bits / 2) by (apply Z.div_le_lower_bound; lia).
  intros fuel t e. split; [|apply generate_large_prime_no_raise; exact Hb2].
  unfold generate_rsa_keypair. generalize fuel at 2. intros inner.
  revert t. induction fuel as [|fuel IH]; intros t; [discriminate|].
  cbn [generate_rsa_keypair_loop]. unfold bind at 1.
  destruct (generate_large_prime inner (bits / 2) t) as [[[p t1]|e1]|] eqn:Ep;
    [|destruct (generate_large_prime_no_raise _ Hb2 _ _ _ Ep)|discriminate].
  unfold bind at 1.
  destruct (generate_large_prime inner (bits / 2) t1) as [[[q t2]|e2]|] eqn:Eq;
    [|destruct (generate_large_prime_no_raise _ Hb2 _ _ _ Eq)|discriminate].
  destruct (p =? q); [apply IH|].
  destruct (Z.eqb_spec (Z.gcd 65537 ((p - 1) * (q - 1))) 1) as [Hgcd|];
    [|apply IH].
  assert (Sp : sampled (bits / 2) p)
    by (apply (generate_large_prime_sampled inner _ t); eexists; exact Ep).
  assert (Sq : sampled (bits / 2) q)
    by (apply (generate_large_prime_sampled inner _ t1); eexists; exact Eq).
  pose proof (sampled_ge_3 _ _ Sp). pose proof (sampled_ge_3 _ _ Sq).
  destruct (py_pow_inverse 65537 ((p - 1) * (q - 1))) as (d & E & _);
    [nia|exact Hgcd|].
  unfold bind, lift, ret. rewrite E. discriminate.
Qed.

Lemma generate_rsa_keypair_no_raise_witness :
  generate_rsa_keypair 1 8 (tape_of [3; 5] 0) <> Some (Raise ValueError) /\
  generate_large_prime 1 (8 / 2) (tape_of [3; 5] 0) <> Some (Raise ValueError).
Proof. apply (generate_rsa_keypair_no_raise 8). lia. Defined.

Lemma encode_utf8_raises message e :
  encode_utf8 message = Raise e -> e = UnicodeEncodeError.
Proof.
  unfold encode_utf8. destruct (holds_surrogate _); [|discriminate].
  intros H. injection H as <-. reflexivity.
Qed.

(** X16. A key pair returned by [generate_rsa_keypair] can be used on
    every message that can be encoded: with it [rsa_sign] returns a
    signature in [0, n) and [rsa_verify] returns a boolean, for every
    integer signature. On a message that cannot be encoded (a lone
    surrogate) both raise UnicodeEncodeError; they raise nothing else. *)
Theorem generated_key_usable fuel bits t pub priv :
  returns (generate_rsa_keypair fuel bits) t (pub, priv) ->
  forall message signature,
    match encode_utf8 message with
    | Ok _ =>
        (exists s, rsa_sign message priv = Ok s /\ 0 <= s < snd pub) /\
        (exists b, rsa_verify message signature pub = Ok b)
    | Raise e =>
        e = UnicodeEncodeError /\
        rsa_sign message priv = Raise UnicodeEncodeError /\
        rsa_verify message signature pub = Raise UnicodeEncodeError
    end.
Proof.
  intros H message signature. apply keypair_loop_sound in H.
  destruct H as (p & q & d & -> & -> & Hne & Sp & Sq & Hgcd & Hed & Hd).
  pose proof (sampled_ge_3 _ _ Sp). pose proof (sampled_ge_3 _ _ Sq).
  cbn [snd]. destruct (encode_utf8 message) as [bytes|e] eqn:He.
  - pose proof (sha256_int_encode _ _ He) as Hh. split.
    + eexists. split; [eapply rsa_sign_nonneg; [exact Hh|nia|lia]|].
      apply Z.mod_pos_bound. nia.
    + eexists. eapply rsa_verify_nonneg; [exact Hh|nia|lia].
  - pose proof (encode_utf8_raises _ _ He) as ->. split; [reflexivity|].
    unfold rsa_sign, rsa_verify, sha256_int. rewrite He. split; reflexivity.
Qed.

Lemma generated_key_usable_witness :
  (exists s, rsa_sign "abc" (113, 143) = Ok s /\ 0 <= s < 143) /\
  (exists b, rsa_verify "abc" (-7) (65537, 143) = Ok b).
Proof.
  assert (H : returns (generate_rsa_keypair 1 8) (tape_of [3; 5] 0)
                ((65537, 143), (113, 143)))
    by (apply outcome_returns; vm_compute; reflexivity).
  exact (generated_key_usable 1 8 (tape_of [3; 5] 0) (65537, 143) (113, 143)
           H "abc" (-7)).
Defined.
